(** * yt_to_spotify: title interpretation and match resolution

    A shallow embedding of [main.py]: the title normaliser [clean_title],
    the special-case detector [handle_special_cases], the extractor
    [extract_artist_track], the query builder [build_spotify_query], the
    matching loop [match_to_spotify] and the URI/URL conversions, followed
    by the properties established about them.

    Python strings are sequences of Unicode code points; they are modelled
    as lists of code points ([N]).  Regular expressions are modelled by an
    abstract syntax and a backtracking matcher that follows the leftmost,
    priority-ordered semantics of Python's [re] module. *)

From Stdlib Require Import List NArith PeanoNat Bool Ascii String Lia.
Import ListNotations.

Set Implicit Arguments.

(** ** Python strings *)

Module Py.

Definition str := list N.

(** An ASCII literal, character by character. *)
Fixpoint lit (s : string) : str :=
  match s with
  | EmptyString => []
  | String a s' => N_of_ascii a :: lit s'
  end.

Definition str_eqb (a b : str) : bool :=
  if list_eq_dec N.eq_dec a b then true else false.

(** [str.isspace] on one code point, which is also what [\s] matches in a
    [str] pattern: the ASCII controls 9-13 and 28-31, the space, and the
    Unicode separators. *)
Definition is_space (c : N) : bool :=
  ((9 <=? c) && (c <=? 13) || (28 <=? c) && (c <=? 32)
   || (c =? 133) || (c =? 160) || (c =? 5760)
   || (8192 <=? c) && (c <=? 8202)
   || (c =? 8232) || (c =? 8233) || (c =? 8239) || (c =? 8287)
   || (c =? 12288))%N.

Definition mem (c : N) (cs : str) : bool := existsb (N.eqb c) cs.

(** [s.lstrip(chars)], [s.rstrip(chars)] and [s.strip(chars)], the set of
    characters given as a predicate. *)
Fixpoint lstrip_by (p : N -> bool) (s : str) : str :=
  match s with
  | c :: s' => if p c then lstrip_by p s' else s
  | [] => []
  end.

Definition rstrip_by (p : N -> bool) (s : str) : str :=
  rev (lstrip_by p (rev s)).

Definition strip_by (p : N -> bool) (s : str) : str :=
  rstrip_by p (lstrip_by p s).

Definition strip (s : str) : str := strip_by is_space s.

Definition strip_chars (cs : str) (s : str) : str :=
  strip_by (fun c => mem c cs) s.

(** [s.split(sep)] for a one-character separator: never empty. *)
Fixpoint split (sep : N) (s : str) : list str :=
  match s with
  | [] => [[]]
  | c :: s' =>
      if N.eqb c sep then [] :: split sep s'
      else match split sep s' with
           | w :: ws => (c :: w) :: ws
           | [] => [[c]]
           end
  end.

(** [s.split(sep)[0]] and [s.split(sep)[-1]]. *)
Definition split_first (sep : N) (s : str) : str := hd [] (split sep s).
Definition split_last (sep : N) (s : str) : str := last (split sep s) [].

Fixpoint startswith (p s : str) : bool :=
  match p, s with
  | [], _ => true
  | a :: p', b :: s' => N.eqb a b && startswith p' s'
  | _ :: _, [] => false
  end.

(** [needle in s]. *)
Fixpoint contains (needle s : str) : bool :=
  startswith needle s ||
  match s with
  | [] => false
  | _ :: s' => contains needle s'
  end.

(** [str.lower] on one code point.  The ASCII capitals go to their small
    letters; U+212A (Kelvin sign) goes to [k] and U+0130 to [i] followed by
    U+0307.  Every other code point beyond ASCII lowercases to code points
    beyond ASCII; the program only compares lowered text with ASCII words, so
    those code points are left in place. *)
Definition lower_char (c : N) : str :=
  (if (65 <=? c) && (c <=? 90) then [c + 32]
   else if c =? 8490 then [107]
   else if c =? 304 then [105; 775]
   else [c])%N.

Definition lower (s : str) : str := flat_map lower_char s.

End Py.

Definition pystr : Type := Py.str.

(** A Python string literal. *)
Definition py (s : string) : pystr := Py.lit s.

(** ** Regular expressions

    The constructs the program's patterns use.  A character is matched by a
    predicate, which covers literals (with or without [re.IGNORECASE]),
    classes, [\s] and [.]; [Rep] is [r*] when greedy and [r*?] when lazy. *)

Module Re.

Inductive regex :=
| Eps
| Chr (p : N -> bool)
| Cat (r1 r2 : regex)
| Alt (r1 r2 : regex)
| Rep (greedy : bool) (r : regex)
| Grp (n : nat) (r : regex)
| Bol
| Eol.

(** Captured groups, the most recent binding first. *)
Definition caps := list (nat * pystr).

Fixpoint group (n : nat) (c : caps) : option pystr :=
  match c with
  | [] => None
  | (m, s) :: c' => if Nat.eqb m n then Some s else group n c'
  end.

(** [match.lastindex]: the patterns that are asked for it have their groups
    side by side, so the group closed last is the one of highest index. *)
Definition lastindex (c : caps) : nat := fold_right (fun e m => Nat.max (fst e) m) 0 c.

Definition orelse {A} (a b : option A) : option A :=
  match a with
  | Some _ => a
  | None => b
  end.

Definition cont := nat -> pystr -> caps -> option (pystr * caps).

(** The loop of a repetition, [body] being the matcher of the repeated
    pattern and [k] what follows the repetition: a greedy loop tries one more
    turn before it tries to go on, a lazy loop the other way round.  A turn
    that consumed nothing is not followed by another; [fuel] bounds the
    number of turns by the length of the text. *)
Fixpoint rep_loop (greedy : bool) (body : nat -> pystr -> caps -> cont -> option (pystr * caps))
         (k : cont) (fuel : nat) (pos : nat) (s : pystr) (c : caps) {struct fuel}
  : option (pystr * caps) :=
  let again :=
    match fuel with
    | 0 => None
    | S fuel' =>
        body pos s c
             (fun pos' s' c' =>
                if Nat.eqb pos' pos then None else rep_loop greedy body k fuel' pos' s' c')
    end in
  if greedy then orelse again (k pos s c) else orelse (k pos s c) again.

(** The matcher, in continuation-passing style: [k] is what remains of the
    pattern.  [pos] is the index of the next character and [s] the text from
    there on.  Alternatives are tried in the order of the pattern and the
    first complete match wins, as in a backtracking engine.  In this program
    every repeated pattern is one character. *)
Fixpoint run (r : regex) (pos : nat) (s : pystr) (c : caps) (k : cont) {struct r}
  : option (pystr * caps) :=
  match r with
  | Eps => k pos s c
  | Chr p =>
      match s with
      | x :: s' => if p x then k (S pos) s' c else None
      | [] => None
      end
  | Cat r1 r2 => run r1 pos s c (fun pos' s' c' => run r2 pos' s' c' k)
  | Alt r1 r2 => orelse (run r1 pos s c k) (run r2 pos s c k)
  | Rep greedy r1 => rep_loop greedy (run r1) k (List.length s) pos s c
  | Grp n r1 =>
      run r1 pos s c (fun pos' s' c' => k pos' s' ((n, firstn (pos' - pos) s) :: c'))
  | Bol => if Nat.eqb pos 0 then k pos s c else None
  | Eol =>
      match s with
      | [] => k pos s c
      | [x] => if N.eqb x 10 then k pos s c else None
      | _ => None
      end
  end.

(** A match starting exactly at [pos]: the text left after it and the groups. *)
Definition match_at (r : regex) (pos : nat) (s : pystr) : option (pystr * caps) :=
  run r pos s [] (fun _ s' c' => Some (s', c')).

(** [re.match(r, s)]. *)
Definition rmatch (r : regex) (s : pystr) : option caps :=
  option_map snd (match_at r 0 s).

(** [re.search(r, s)]: the leftmost position at which [r] matches. *)
Fixpoint search_from (r : regex) (pos : nat) (s : pystr) : option caps :=
  match match_at r pos s with
  | Some (_, c) => Some c
  | None =>
      match s with
      | [] => None
      | _ :: s' => search_from r (S pos) s'
      end
  end.

Definition search (r : regex) (s : pystr) : option caps := search_from r 0 s.

(** [re.sub(r, repl, s)] for a constant replacement: scanning from the left,
    each match is replaced and the scan resumes after it.  [skip] counts the
    characters of the current match that are still to be dropped.  None of
    the program's patterns matches the empty string. *)
Fixpoint sub_from (r : regex) (repl : pystr) (pos : nat) (skip : nat) (s : pystr) : pystr :=
  match s with
  | [] =>
      match skip, match_at r pos [] with
      | 0, Some _ => repl
      | _, _ => []
      end
  | x :: s' =>
      match skip with
      | S n => sub_from r repl (S pos) n s'
      | 0 =>
          match match_at r pos s with
          | Some (rest, _) =>
              match List.length s - List.length rest with
              | 0 => repl ++ x :: sub_from r repl (S pos) 0 s'
              | S n => repl ++ sub_from r repl (S pos) n s'
              end
          | None => x :: sub_from r repl (S pos) 0 s'
          end
      end
  end.

Definition sub (r : regex) (repl : pystr) (s : pystr) : pystr :=
  sub_from r repl 0 0 s.

(** *** Building patterns *)

Definition plus (greedy : bool) (r : regex) : regex := Cat r (Rep greedy r).
Definition opt (r : regex) : regex := Alt r Eps.

Fixpoint cat (rs : list regex) : regex :=
  match rs with
  | [] => Eps
  | [r] => r
  | r :: rs' => Cat r (cat rs')
  end.

Fixpoint alt (rs : list regex) : regex :=
  match rs with
  | [] => Eps
  | [r] => r
  | r :: rs' => Alt r (alt rs')
  end.

(** A literal character without and with [re.IGNORECASE].  Under the flag a
    small ASCII letter also matches its capital and the code points the
    engine folds onto it: U+212A onto [k], U+0130 and U+0131 onto [i],
    U+017F onto [s]. *)
Definition exactly (c : N) : N -> bool := N.eqb c.

Definition nocase (c : N) (x : N) : bool :=
  (if (97 <=? c) && (c <=? 122)
   then (x =? c) || (x =? c - 32)
        || (c =? 107) && (x =? 8490)
        || (c =? 105) && ((x =? 304) || (x =? 305))
        || (c =? 115) && (x =? 383)
   else x =? c)%N.

Definition one_of (cs : pystr) (x : N) : bool := Py.mem x cs.
Definition none_of (cs : pystr) (x : N) : bool := negb (Py.mem x cs).
Definition either (p q : N -> bool) (x : N) : bool := p x || q x.

(** [.] without [re.DOTALL]: anything but a newline. *)
Definition dot (x : N) : bool := negb (N.eqb x 10).

Definition word (s : string) : regex := cat (map (fun c => Chr (exactly c)) (py s)).
Definition iword (s : string) : regex := cat (map (fun c => Chr (nocase c)) (py s)).

Definition ws : regex := Chr Py.is_space.

End Re.

(** ** Exceptions

    The exceptions this part of the program can meet, and [str(e)].  An
    exception raised by the search client is kept by its message. *)

Inductive exn :=
| NameError (name : string)
| UnboundLocalError (name : string)
| TypeError (what : string)
| AttributeError (what : string)
| KeyError (key : string)
| ZeroDivisionError
| ClientError (message : pystr).

Definition exn_str (e : exn) : pystr :=
  match e with
  | NameError name => py "name '" ++ py name ++ py "' is not defined"
  | UnboundLocalError name =>
      py "cannot access local variable '" ++ py name
         ++ py "' where it is not associated with a value"
  | TypeError what => py what
  | AttributeError what => py what
  | KeyError key => py "'" ++ py key ++ py "'"
  | ZeroDivisionError => py "division by zero"
  | ClientError message => message
  end.

Inductive result (A : Type) :=
| Ok (a : A)
| Raise (e : exn).

Arguments Ok {A} a.
Arguments Raise {A} e.

Definition bind {A B} (m : result A) (f : A -> result B) : result B :=
  match m with
  | Ok a => f a
  | Raise e => Raise e
  end.

Notation "x <- m ;; k" := (bind m (fun x => k))
  (at level 61, m at next level, right associativity).

(** ** The title normaliser (main.py, clean_title) *)

Module Patterns.
Import Re.

Definition any_lazy : regex := Rep false (Chr dot).
Definition any_greedy : regex := Rep true (Chr dot).
Definition ws_star : regex := Rep true ws.
Definition ws_plus : regex := plus true ws.
Definition chr (s : string) : regex := Chr (one_of (py s)).

(** [(?i)\s*(official\s*(video|audio|lyric video|music video)?|lyrics?|hd|4k|mv|visualizer)\s*$] *)
Definition promo_suffix : regex :=
  cat [ws_star;
       Grp 1 (alt [cat [iword "official"; ws_star;
                        opt (Grp 2 (alt [iword "video"; iword "audio";
                                         iword "lyric video"; iword "music video"]))];
                   cat [iword "lyric"; opt (iword "s")];
                   iword "hd"; iword "4k"; iword "mv"; iword "visualizer"]);
       ws_star; Eol].

(** [(?i)\s*-\s*(vevo|topic)\s*$] *)
Definition channel_suffix : regex :=
  cat [ws_star; chr "-"; ws_star; Grp 1 (alt [iword "vevo"; iword "topic"]); ws_star; Eol].

(** The class of the straight double and single quotes. *)
Definition quotes : regex := Chr (one_of [34; 39]%N).

(** [[\(\[].*?[\)\]]] *)
Definition bracketed : regex := cat [chr "(["; any_lazy; chr ")]"].

(** The [unwanted] keywords joined by [|], compiled with [re.IGNORECASE]. *)
Definition unwanted : list string :=
  ["official video"; "official audio"; "lyric video";
   "lyrics"; "hd"; "4k"; "topic"; "visualizer";
   "music video"; "official music video"; "mv"]%string.

Definition unwanted_re : regex := alt (map iword unwanted).

(** [\s{2,}] *)
Definition ws_two_or_more : regex := cat [ws; ws; ws_star].

End Patterns.

Definition separators : pystr := py " -:|~".

Definition clean_title (title : pystr) : pystr :=
  let title := Re.sub Patterns.promo_suffix [] title in
  let title := Re.sub Patterns.channel_suffix [] title in
  let title := Re.sub Patterns.quotes [] title in
  let title := Py.strip (Re.sub Patterns.ws_plus (py " ") title) in
  let title := Re.sub Patterns.bracketed [] title in
  let title := Py.strip (Re.sub Patterns.ws_plus (py " ") title) in
  let title := Py.strip_chars separators title in
  let title := Re.sub Patterns.unwanted_re [] title in
  let title := Py.strip_chars separators title in
  let title := Re.sub Patterns.ws_two_or_more (py " ") title in
  Py.strip title.

(** ** The special-case detector (main.py, handle_special_cases) *)

Module SpecialPatterns.
Import Re Patterns.

(** [\((.*?)\s*cover\)], searched with [re.IGNORECASE]. *)
Definition cover_artist : regex :=
  cat [chr "("; Grp 1 any_lazy; ws_star; iword "cover"; chr ")"].

(** [\s*\(.*?cover\)], substituted without any flag. *)
Definition cover_span : regex :=
  cat [ws_star; chr "("; any_lazy; word "cover"; chr ")"].

End SpecialPatterns.

(** [any(x in s for x in needles)]. *)
Definition any_in (needles : list string) (s : pystr) : bool :=
  existsb (fun x => Py.contains (py x) s) needles.

Definition mix_words : list string := ["math rock"; "midwest emo"; "mix"; "playlist"]%string.
Definition album_words : list string := ["full album"; "full ep"; "[full]"]%string.

Definition pipe : N := 124.
Definition lbracket : N := 91.

Definition handle_special_cases (title : pystr) : option pystr * option pystr :=
  if any_in mix_words (Py.lower title) then
    (None, Some (Py.strip (Py.split_first pipe title)))
  else if any_in album_words (Py.lower title) then
    (None, Some (Py.strip (Py.split_first lbracket title)))
  else
    match Re.search SpecialPatterns.cover_artist title with
    | Some cover_match =>
        let original_artist := Re.group 1 cover_match in
        let track := Re.sub SpecialPatterns.cover_span [] title in
        (original_artist, Some track)
    | None => (None, None)
    end.

(** ** The extractor (main.py, extract_artist_track) *)

Module ExtractPatterns.
Import Re Patterns.

Definition en_dash : N := 8211.
Definition em_dash : N := 8212.
Definition lquote : N := 8220.
Definition rquote : N := 8221.

(** The classes [[-:|~]], [[-\u2013~|]], [[-\u2013]], [[\s\-\u2013\u2014:|]] and [[^\(\[\{]]. *)
Definition delim : regex := chr "-:|~".
Definition dash : regex := Chr (one_of (py "-" ++ [en_dash] ++ py "~|")).
Definition hyphen : regex := Chr (one_of (py "-" ++ [en_dash])).
Definition gap : regex :=
  Chr (either Py.is_space (one_of (py "-" ++ [en_dash; em_dash] ++ py ":|"))).
Definition no_open : regex := Chr (none_of (py "([{")).
Definition open_quote : regex := Chr (one_of [34%N; lquote]).
Definition close_quote : regex := Chr (one_of [34%N; rquote]).
Definition ft : regex := cat [iword "ft"; chr "."].

(** The fifteen patterns, in the order of the source; each is given in a
    comment as the source writes it, except that a blank separates a star
    from a closing parenthesis, \x22 is the straight double quote and
    \u2013, \u2014, \u201c, \u201d are the dashes and curly quotes. *)
Definition patterns : list regex :=
  [ (* ^(.*?)\s*[-:|~]\s*(.*?)(?:\s+\(.*\))?$ *)
    cat [Bol; Grp 1 any_lazy; ws_star; delim; ws_star; Grp 2 any_lazy;
         opt (cat [ws_plus; chr "("; any_greedy; chr ")"]); Eol];
    (* ^(.*?)\s*[-:|~]\s*(.*?)(?:\s+\[.*\])?$ *)
    cat [Bol; Grp 1 any_lazy; ws_star; delim; ws_star; Grp 2 any_lazy;
         opt (cat [ws_plus; chr "["; any_greedy; chr "]"]); Eol];
    (* ^(.*?)\s*[-:|~]\s*(.*?)(?:\s+ft\..* )?$ *)
    cat [Bol; Grp 1 any_lazy; ws_star; delim; ws_star; Grp 2 any_lazy;
         opt (cat [ws_plus; ft; any_greedy]); Eol];
    (* ^(.*?)\s*[-:|~]\s*(.* )$ *)
    cat [Bol; Grp 1 any_lazy; ws_star; delim; ws_star; Grp 2 any_greedy; Eol];
    (* ^(.*?)[\s\-\u2013\u2014:|]+(.*?)$ *)
    cat [Bol; Grp 1 any_lazy; plus true gap; Grp 2 any_lazy; Eol];
    (* ^(.*?)\s*[\x22\u201c](.*?)[\x22\u201d] *)
    cat [Bol; Grp 1 any_lazy; ws_star; open_quote; Grp 2 any_lazy; close_quote];
    (* ^(.*?)\s+-\s+(.*?)$ *)
    cat [Bol; Grp 1 any_lazy; ws_plus; chr "-"; ws_plus; Grp 2 any_lazy; Eol];
    (* ^(.*?)\s*[-\u2013~|]\s*([^\(\[\{]+?)\s*(?:\(ft\.\s*(.*?)\)|ft\.\s*(.*?))(?:\s*[\(\[]|\s*$) *)
    cat [Bol; Grp 1 any_lazy; ws_star; dash; ws_star; Grp 2 (plus false no_open); ws_star;
         Alt (cat [chr "("; ft; ws_star; Grp 3 any_lazy; chr ")"])
             (cat [ft; ws_star; Grp 4 any_lazy]);
         Alt (cat [ws_star; chr "(["]) (cat [ws_star; Eol])];
    (* ^(.*?)\s*[-\u2013~|]\s*([^\(\[\{]+) *)
    cat [Bol; Grp 1 any_lazy; ws_star; dash; ws_star; Grp 2 (plus true no_open)];
    (* ^(.*?)\s*:\s*([^\(\[\{]+) *)
    cat [Bol; Grp 1 any_lazy; ws_star; chr ":"; ws_star; Grp 2 (plus true no_open)];
    (* ^(.*?)\s*[\x22\u201c](.+?)[\x22\u201d] *)
    cat [Bol; Grp 1 any_lazy; ws_star; open_quote; Grp 2 (plus false (Chr dot)); close_quote];
    (* ^(.*?)\s*[-\u2013~|]\s*(.*?)\s*(?:\(live[^\)]*\)|\[live[^\]]*\]) *)
    cat [Bol; Grp 1 any_lazy; ws_star; dash; ws_star; Grp 2 any_lazy; ws_star;
         Alt (cat [chr "("; iword "live"; Rep true (Chr (none_of (py ")"))); chr ")"])
             (cat [chr "["; iword "live"; Rep true (Chr (none_of (py "]"))); chr "]"])];
    (* ^(.*?)\s*[-\u2013~|]\s*(.*?)\s*(?:\(cover[^\)]*\)|\[cover[^\]]*\]) *)
    cat [Bol; Grp 1 any_lazy; ws_star; dash; ws_star; Grp 2 any_lazy; ws_star;
         Alt (cat [chr "("; iword "cover"; Rep true (Chr (none_of (py ")"))); chr ")"])
             (cat [chr "["; iword "cover"; Rep true (Chr (none_of (py "]"))); chr "]"])];
    (* ^(.*?)\s*[-\u2013~|]\s*(.*?)\s*(?:\(.*?remix\)|\[.*?remix\]) *)
    cat [Bol; Grp 1 any_lazy; ws_star; dash; ws_star; Grp 2 any_lazy; ws_star;
         Alt (cat [chr "("; any_lazy; iword "remix"; chr ")"])
             (cat [chr "["; any_lazy; iword "remix"; chr "]"])];
    (* ^(.* )\s*[-\u2013]\s*(.* )$ *)
    cat [Bol; Grp 1 any_greedy; ws_star; hyphen; ws_star; Grp 2 any_greedy; Eol] ].

End ExtractPatterns.

(** [match.group(n).strip()]: an absent group is [None], which has no [strip]. *)
Definition group_stripped (n : nat) (m : Re.caps) : result pystr :=
  match Re.group n m with
  | Some g => Ok (Py.strip g)
  | None => Raise (AttributeError "'NoneType' object has no attribute 'strip'")
  end.

(** [a or b] on optional strings: [a] unless it is [None] or empty. *)
Definition py_or (a b : option pystr) : option pystr :=
  match a with
  | Some (_ :: _) => a
  | _ => b
  end.

(** The body of the [for pattern in patterns] loop and the fallback after it. *)
Fixpoint cascade (patterns : list Re.regex) (title : pystr)
  : result (option pystr * option pystr) :=
  match patterns with
  | [] => Ok (None, Some title)
  | pattern :: rest =>
      match Re.rmatch pattern title with
      | Some m =>
          artist <- group_stripped 1 m ;;
          track <- group_stripped 2 m ;;
          let track :=
            if 3 <=? Re.lastindex m then
              match py_or (Re.group 3 m) (Re.group 4 m) with
              | Some (c :: feat) => track ++ py " (feat. " ++ Py.strip (c :: feat) ++ py ")"
              | _ => track
              end
            else track in
          Ok (Some artist, Some track)
      | None => cascade rest title
      end
  end.

(** The function body once the name it calls first has been resolved to
    [special]. *)
Definition extract_with (special : pystr -> option pystr * option pystr) (title : pystr)
  : result (option pystr * option pystr) :=
  let '(artist, track) := special title in
  match artist with
  | Some _ => Ok (artist, track)
  | None => cascade ExtractPatterns.patterns (clean_title title)
  end.

(** The names bound at module level when the functions run: the imports, the
    module constants and every [def].  Only the objects that can stand where
    [extract_artist_track] makes its first call are told apart. *)
Inductive pyobj :=
| ObjOther
| ObjTitleToPair (f : pystr -> option pystr * option pystr).

Definition module_globals : list (string * pyobj) :=
  [ ("os", ObjOther); ("re", ObjOther); ("time", ObjOther); ("csv", ObjOther);
    ("datetime", ObjOther); ("build", ObjOther); ("spotipy", ObjOther);
    ("SpotifyOAuth", ObjOther); ("CacheFileHandler", ObjOther);
    ("load_dotenv", ObjOther); ("logging", ObjOther);
    ("yt_api", ObjOther); ("sp_client_id", ObjOther); ("sp_client_secret", ObjOther);
    ("CACHE_PATH", ObjOther);
    ("log", ObjOther); ("log_match_status", ObjOther); ("get_spotify_client", ObjOther);
    ("get_youtube_playlist_items", ObjOther); ("export_to_csv", ObjOther);
    ("clean_title", ObjOther);
    ("handle_special_cases", ObjTitleToPair handle_special_cases);
    ("extract_artist_track", ObjOther); ("build_spotify_query", ObjOther);
    ("match_to_spotify", ObjOther); ("analyze_unmatched_patterns", ObjOther);
    ("export_matched_to_csv", ObjOther); ("export_unmatched_to_csv", ObjOther);
    ("read_spotify_tracks_from_csv", ObjOther); ("create_or_use_playlist", ObjOther);
    ("add_tracks_to_playlist", ObjOther) ]%string.

Fixpoint lookup_global (name : string) (env : list (string * pyobj)) : option pyobj :=
  match env with
  | [] => None
  | (n, o) :: env' => if String.eqb n name then Some o else lookup_global name env'
  end.

(** Line 218 calls the name [handle_special_casese]; the name is looked up
    when the call runs. *)
Definition extract_artist_track (title : pystr) : result (option pystr * option pystr) :=
  match lookup_global "handle_special_casese" module_globals with
  | None => Raise (NameError "handle_special_casese")
  | Some (ObjTitleToPair special) => extract_with special title
  | Some ObjOther => Raise (TypeError "object is not callable")
  end.

(** ** The query builder (main.py, build_spotify_query) *)

(** What the function returns: a string on one path and a list of strings on
    the other.  A [for] loop over a string visits its characters, each as a
    string of length one. *)
Inductive pyval :=
| VStr (s : pystr)
| VList (l : list pystr).

Definition py_iter (v : pyval) : list pystr :=
  match v with
  | VStr s => map (fun c => [c]) s
  | VList l => l
  end.

(** Truth value of an optional string: [None] and the empty string are false. *)
Definition truthy (v : option pystr) : bool :=
  match v with
  | Some (_ :: _) => true
  | _ => false
  end.

(** [(\s*-\s*topic|\s*vevo|\s*official)$], substituted with [re.IGNORECASE]. *)
Definition brand_suffix : Re.regex :=
  Re.cat [Re.Grp 1 (Re.alt [Re.cat [Patterns.ws_star; Patterns.chr "-"; Patterns.ws_star;
                                    Re.iword "topic"];
                            Re.cat [Patterns.ws_star; Re.iword "vevo"];
                            Re.cat [Patterns.ws_star; Re.iword "official"]]);
          Re.Eol].

Definition is_various_artists (artist : option pystr) : bool :=
  match artist with
  | Some a => Py.str_eqb (Py.lower a) (py "various artists")
  | None => false
  end.

Definition build_spotify_query (artist : option pystr) (track : pystr) : pyval :=
  match artist with
  | Some a =>
      if negb (truthy artist) || is_various_artists artist then
        VStr (py "track:" ++ track)
      else
        let artist_clean := Re.sub brand_suffix [] a in
        let queries :=
          [ py "artist:" ++ artist_clean ++ py " track:" ++ track;
            artist_clean ++ py " " ++ track;
            track ] in
        VList queries
  | None => VStr (py "track:" ++ track)
  end.

(** ** The matching loop (main.py, match_to_spotify)

    An entry of [video_data] has the five keys that
    [get_youtube_playlist_items] gives it.  The search client is a function
    of the query; its answer is either an exception or a response, and a
    response either holds the list under [tracks] and [items] or lacks it.
    What the function prints and the pause between items are left out: they
    do not change what it returns, except that the summary line divides by
    the number of items. *)

Record video := {
  title : pystr;
  video_id : pystr;
  url : pystr;
  channel : pystr;
  position : nat
}.

Record hit := { uri : pystr }.

Inductive response :=
| Tracks (items : list hit)
| Malformed.

Definition client := pystr -> result response.

Definition items_of (r : response) : result (list hit) :=
  match r with
  | Tracks items => Ok items
  | Malformed => Raise (KeyError "tracks")
  end.

(** One entry of [results]: the keys of the item and the four keys added.
    On a hit the loop also writes [spotify_uri] and [query_used] into the
    item itself; the entry is built from a copy of the item with these keys
    set anew, so it reads the same either way. *)
Record outcome := {
  item : video;
  spotify_uri : option pystr;
  spotify_url : option pystr;
  match_status : pystr;
  query_used : pystr
}.

(** The local variables that outlive one turn of the loop over the items:
    [query] and [result] are bound by the inner loop and keep their value
    afterwards; [None] is a name not bound yet. *)
Record locals := {
  query : option pystr;
  result_ : option response
}.

Record state := {
  results : list outcome;
  matched : nat;
  unmatched_titles : list pystr;
  vars : locals
}.

Definition initial : state :=
  {| results := []; matched := 0; unmatched_titles := [];
     vars := {| query := None; result_ := None |} |}.

Definition colon : N := 58.
Definition slash : N := 47.

Definition check_mark : pystr := [9989%N].
Definition cross_mark : pystr := [10060%N].
Definition warning_sign : pystr := [9888%N; 65039%N].

Definition track_url_prefix : pystr := py "https://open.spotify.com/track/".

(** The URL written for a URI (line 336). *)
Definition spotify_url_of (spotify_uri : pystr) : pystr :=
  track_url_prefix ++ Py.split_last colon spotify_uri.

(** [for query in queries]: the candidate is bound, then searched; the first
    candidate with a hit ends the loop.  An exception leaves the loop with the
    variables as they are at that point. *)
Fixpoint for_queries (search : client) (queries : list pystr) (lc : locals)
  : locals * option exn :=
  match queries with
  | [] => (lc, None)
  | q :: rest =>
      let lc := {| query := Some q; result_ := result_ lc |} in
      match search q with
      | Raise e => (lc, Some e)
      | Ok r =>
          let lc := {| query := Some q; result_ := Some r |} in
          match items_of r with
          | Raise e => (lc, Some e)
          | Ok (best_match :: _) => (lc, None)
          | Ok [] => for_queries search rest lc
          end
      end
  end.

(** An f-string writes [None] as the word. *)
Definition fmt (v : option pystr) : pystr :=
  match v with
  | Some s => s
  | None => py "None"
  end.

Definition with_vars (st : state) (lc : locals) : state :=
  {| results := results st; matched := matched st;
     unmatched_titles := unmatched_titles st; vars := lc |}.

Definition found_outcome (it : video) (uri_ : option pystr) (q : pystr) : outcome :=
  {| item := it;
     spotify_uri := uri_;
     spotify_url := if truthy uri_ then option_map spotify_url_of uri_ else None;
     match_status := if truthy uri_ then check_mark else cross_mark;
     query_used := q |}.

Definition error_outcome (it : video) (e : exn) (q : option pystr) : outcome :=
  {| item := it;
     spotify_uri := None;
     spotify_url := None;
     match_status := warning_sign ++ py " (" ++ exn_str e ++ py ")";
     query_used := match q with Some q => q | None => py "N/A" end |}.

(** The loop over the items, for any function standing at the call of
    [extract_artist_track]; the program's own is put in below. *)
Section Matching.

Variable extract : pystr -> result (option pystr * option pystr).
Variable search : client.

(** The body of the [try]: the state it leaves and the exception, if one was
    raised.  The builder is given the text of the track; no path of the
    extractor returns a null one (see [extract_with_track_present]). *)
Definition try_body (it : video) (st : state) : state * option exn :=
  match extract (title it) with
  | Raise e => (st, Some e)
  | Ok (artist, track) =>
      let queries := build_spotify_query artist (fmt track) in
      let '(lc, err) := for_queries search (py_iter queries) (vars st) in
      let st := with_vars st lc in
      match err with
      | Some e => (st, Some e)
      | None =>
          match result_ lc with
          | None => (st, Some (UnboundLocalError "result"))
          | Some r =>
              match items_of r with
              | Raise e => (st, Some e)
              | Ok items =>
                  let uri_ := option_map uri (head items) in
                  let st :=
                    match uri_ with
                    | Some _ =>
                        {| results := results st; matched := S (matched st);
                           unmatched_titles := unmatched_titles st; vars := vars st |}
                    | None =>
                        {| results := results st; matched := matched st;
                           unmatched_titles := unmatched_titles st ++ [title it];
                           vars := vars st |}
                    end in
                  match query lc with
                  | None => (st, Some (UnboundLocalError "query"))
                  | Some q =>
                      ({| results := results st ++ [found_outcome it uri_ q];
                          matched := matched st;
                          unmatched_titles := unmatched_titles st;
                          vars := vars st |}, None)
                  end
              end
          end
      end
  end.

(** The [except Exception as e] clause. *)
Definition except_clause (it : video) (e : exn) (st : state) : state :=
  {| results := results st ++ [error_outcome it e (query (vars st))];
     matched := matched st;
     unmatched_titles := unmatched_titles st ++ [title it];
     vars := vars st |}.

Definition process_item (st : state) (it : video) : state :=
  match try_body it st with
  | (st', None) => st'
  | (st', Some e) => except_clause it e st'
  end.

Definition match_loop (video_data : list video) : result (list outcome * nat) :=
  let st := fold_left process_item video_data initial in
  (* the summary line computes matched / len(video_data) *)
  if Nat.eqb (List.length video_data) 0 then Raise ZeroDivisionError
  else Ok (results st, matched st).

End Matching.

Definition match_to_spotify (video_data : list video) (sp_client : client)
  : result (list outcome * nat) :=
  match_loop extract_artist_track sp_client video_data.

(** ** Reading the URIs back (main.py, read_spotify_tracks_from_csv)

    A row is given by its [spotify_url] column. *)

Definition track_uri_prefix : pystr := py "spotify:track:".

Definition uri_of_url (spotify_url : pystr) : option pystr :=
  if Py.startswith track_url_prefix spotify_url
  then Some (track_uri_prefix ++ Py.split_last slash spotify_url)
  else None.

Fixpoint read_spotify_tracks_from_csv (rows : list pystr) : list pystr :=
  match rows with
  | [] => []
  | row :: rows' =>
      match uri_of_url row with
      | Some track_uri => track_uri :: read_spotify_tracks_from_csv rows'
      | None => read_spotify_tracks_from_csv rows'
      end
  end.

(** ** Fetching the playlist (main.py, get_youtube_playlist_items)

    An item of a page as the function reads it: each key may be missing.
    The API is a function of the page token, [None] for the first request;
    its answer is an exception or a page, and a page may lack its [items]. *)

Record resource_id := { videoId : option pystr }.

Record snippet := {
  snippet_title : option pystr;
  resourceId : option resource_id;
  videoOwnerChannelTitle : option pystr
}.

Record playlist_item := { item_snippet : option snippet }.

Record playlist_page := {
  page_items : option (list playlist_item);
  nextPageToken : option pystr
}.

Definition youtube_api := option pystr -> result playlist_page.

(** The dictionary built for one item, [count] being [len(videos)]; a
    missing key raises [KeyError]. *)
Definition video_of_item (it : playlist_item) (count : nat) : result video :=
  match item_snippet it with
  | None => Raise (KeyError "snippet")
  | Some sn =>
      match snippet_title sn with
      | None => Raise (KeyError "title")
      | Some t =>
          match resourceId sn with
          | None => Raise (KeyError "resourceId")
          | Some r =>
              match videoId r with
              | None => Raise (KeyError "videoId")
              | Some v =>
                  Ok {| title := t;
                        video_id := v;
                        url := py "https://youtu.be/" ++ v;
                        channel := match videoOwnerChannelTitle sn with
                                   | Some c => c
                                   | None => py "Unknown Channel"
                                   end;
                        position := count + 1 |}
              end
          end
      end
  end.

(** One turn of [for item in response["items"]]: a malformed item is logged
    and skipped. *)
Definition add_item (videos : list video) (it : playlist_item) : list video :=
  match video_of_item it (List.length videos) with
  | Ok video_data => videos ++ [video_data]
  | Raise _ => videos
  end.

(** The [while True] loop.  A failed request, or a page without [items],
    ends it with the videos gathered so far; so does a page whose next token
    is missing or empty.  [fuel] bounds the number of requests: the loop
    itself has no bound, and [None] is a run that asks for more. *)
Fixpoint fetch_pages (api : youtube_api) (fuel : nat) (next_page_token : option pystr)
         (videos : list video) : option (list video) :=
  match fuel with
  | 0 => None
  | S fuel' =>
      match api next_page_token with
      | Raise _ => Some videos
      | Ok response =>
          match page_items response with
          | None => Some videos
          | Some its =>
              let videos := fold_left add_item its videos in
              match nextPageToken response with
              | Some (c :: token) => fetch_pages api fuel' (Some (c :: token)) videos
              | _ => Some videos
              end
          end
      end
  end.

Definition get_youtube_playlist_items (api : youtube_api) (fuel : nat) : option (list video) :=
  fetch_pages api fuel None [].

(** ** Sorting the unmatched titles (main.py, analyze_unmatched_patterns)

    A row is given by its [title] column. *)

Record pattern_groups := {
  covers : list pystr;
  remixes : list pystr;
  live : list pystr;
  instrumental : list pystr;
  mixes : list pystr
}.

Definition no_groups : pattern_groups :=
  {| covers := []; remixes := []; live := []; instrumental := []; mixes := [] |}.

Definition has_word (word : string) (title : pystr) : bool :=
  Py.contains (py word) (Py.lower title).

(** The [if]/[elif] chain on one row. *)
Definition sort_title (patterns : pattern_groups) (title : pystr) : pattern_groups :=
  if has_word "cover" title then
    {| covers := covers patterns ++ [title]; remixes := remixes patterns;
       live := live patterns; instrumental := instrumental patterns;
       mixes := mixes patterns |}
  else if has_word "remix" title then
    {| covers := covers patterns; remixes := remixes patterns ++ [title];
       live := live patterns; instrumental := instrumental patterns;
       mixes := mixes patterns |}
  else if has_word "live" title then
    {| covers := covers patterns; remixes := remixes patterns;
       live := live patterns ++ [title]; instrumental := instrumental patterns;
       mixes := mixes patterns |}
  else if has_word "instrumental" title then
    {| covers := covers patterns; remixes := remixes patterns;
       live := live patterns; instrumental := instrumental patterns ++ [title];
       mixes := mixes patterns |}
  else if has_word "mix" title then
    {| covers := covers patterns; remixes := remixes patterns;
       live := live patterns; instrumental := instrumental patterns;
       mixes := mixes patterns ++ [title] |}
  else patterns.

Definition analyze_unmatched_patterns (titles : list pystr) : pattern_groups :=
  fold_left sort_title titles no_groups.

(** ** Writing the results (main.py, export_matched_to_csv and
    export_unmatched_to_csv)

    The rows handed to the writer after the header, in order; a cell that is
    [None] is written as the empty text. *)

Record matched_row := {
  mr_position : nat;
  mr_title : pystr;
  mr_channel : pystr;
  mr_spotify_url : option pystr;
  mr_query_used : pystr
}.


Fixpoint export_matched_to_csv (matched_data : list outcome) : list matched_row :=
  match matched_data with
  | [] => []
  | o :: rest =>
      if truthy (spotify_uri o) then
        {| mr_position := position (item o);
           mr_title := title (item o);
           mr_channel := channel (item o);
           mr_spotify_url := spotify_url o;
           mr_query_used := query_used o |} :: export_matched_to_csv rest
      else export_matched_to_csv rest
  end.


(** The text of a cell. *)
Definition cell (v : option pystr) : pystr :=
  match v with
  | Some s => s
  | None => []
  end.

(** ** Choosing the playlist (main.py, create_or_use_playlist)

    The two lines typed at the prompts are given; the second is read only
    after a yes.  The result is the call made on the client. *)

Inductive playlist_call :=
| GetPlaylist (playlist_id : pystr)
| CreatePlaylist (user name : pystr) (public : bool).

Definition question_mark : N := 63.

Definition create_or_use_playlist (user_id playlist_name : pystr)
           (first_line second_line : pystr) : playlist_call :=
  let use_existing := Py.lower (Py.strip first_line) in
  if Py.str_eqb use_existing (py "y") then
    let playlist_id := Py.strip second_line in
    let playlist_id :=
      if Py.contains (py "playlist") playlist_id
      then Py.split_first question_mark (Py.split_last slash playlist_id)
      else playlist_id in
    GetPlaylist playlist_id
  else CreatePlaylist user_id playlist_name true.

(** ** Filling the playlist (main.py, add_tracks_to_playlist) *)

Definition chunk_size : nat := 100.

(** [range(0, stop, step)] for a positive step. *)
Definition range_step (stop step : nat) : list nat :=
  map (fun k => k * step) (seq 0 ((stop + step - 1) / step)).

(** [l[i:j]]. *)
Definition slice {A} (i j : nat) (l : list A) : list A := firstn (j - i) (skipn i l).

(** The calls made on the client, one per chunk, up to and with the first
    that raises, and how the loop ends. *)
Fixpoint send_chunks (add_items : pystr -> list pystr -> result unit) (playlist_id : pystr)
         (track_uris : list pystr) (starts : list nat)
  : list (list pystr) * result unit :=
  match starts with
  | [] => ([], Ok tt)
  | i :: rest =>
      let chunk := slice i (i + chunk_size) track_uris in
      match add_items playlist_id chunk with
      | Raise e => ([chunk], Raise e)
      | Ok _ =>
          let '(calls, r) := send_chunks add_items playlist_id track_uris rest in
          (chunk :: calls, r)
      end
  end.

Definition add_tracks_to_playlist (add_items : pystr -> list pystr -> result unit)
           (playlist_id : pystr) (track_uris : list pystr)
  : list (list pystr) * result unit :=
  send_chunks add_items playlist_id track_uris
              (range_step (List.length track_uris) chunk_size).

(** ** Vocabulary of the properties *)

(** The exception every call of the extractor ends in. *)
Definition name_error : exn := NameError "handle_special_casese".

(** [count_found os]: the outcomes that carry a URI. *)
Definition has_uri (o : outcome) : bool :=
  match spotify_uri o with
  | Some _ => true
  | None => false
  end.

Definition count_found (os : list outcome) : nat := List.length (filter has_uri os).

(** Once [result] is bound, so is [query]: the inner loop binds [query]
    first. *)
Definition bound_together (lc : locals) : Prop :=
  result_ lc <> None -> query lc <> None.

(** The counter and the list stay in step. *)
Definition in_step (st : state) : Prop :=
  matched st = count_found (results st) /\ bound_together (vars st).

(** Groups once captured stay captured. *)
Definition caps_grow (c c' : Re.caps) : Prop :=
  forall n, Re.group n c <> None -> Re.group n c' <> None.

(** A successful run hands some suffix of the text to its continuation, with
    at least the groups it started from. *)
Definition reaches (k : Re.cont) (s : pystr) (c : Re.caps) (x : pystr * Re.caps) : Prop :=
  exists pos' pre s' c', s = pre ++ s' /\ caps_grow c c' /\ k pos' s' c' = Some x.

(** [binds n r]: every way through [r] captures group [n]. *)
Fixpoint binds (n : nat) (r : Re.regex) : bool :=
  match r with
  | Re.Grp m r' => Nat.eqb m n || binds n r'
  | Re.Cat r1 r2 => binds n r1 || binds n r2
  | Re.Alt r1 r2 => binds n r1 && binds n r2
  | _ => false
  end.

(** The size of a title for the purpose of termination of repeated passes:
    its length, a blank other than the space counting double. *)
Definition weight (c : N) : nat :=
  if Py.is_space c && negb (N.eqb c 32) then 2 else 1.

Definition measure (s : pystr) : nat := list_sum (map weight s).

(** A pass that changes its argument makes it smaller. *)
Definition shrinks (f : pystr -> pystr) : Prop :=
  forall s, f s = s \/ measure (f s) < measure s.

(** A pattern that matches only where the text begins with a blank, and then
    consumes at least [need] characters. *)
Definition eats_blanks (need : nat) (r : Re.regex) : Prop :=
  (forall pos, Re.match_at r pos [] = None)
  /\ forall pos x s rest c,
      Re.match_at r pos (x :: s) = Some (rest, c) ->
      Py.is_space x = true /\ List.length rest + need <= List.length (x :: s).

(** A batch of two items and a search client that has a hit for the bare
    track only, for the examples. *)
Definition first_video : video :=
  {| title := py "Artist - Song"; video_id := py "a1"; url := py "https://youtu.be/a1";
     channel := py "Artist"; position := 1 |}.

Definition second_video : video :=
  {| title := py "Other - Tune"; video_id := py "b2"; url := py "https://youtu.be/b2";
     channel := py "Other"; position := 2 |}.

Definition song_hit : hit := {| uri := py "spotify:track:4uLU6hMCjMI75M1A2tKUQC" |}.

Definition third_candidate_only : client :=
  fun q => if Py.str_eqb q (py "Song") then Ok (Tracks [song_hit]) else Ok (Tracks []).

(** The lists of items that the API serves from a token on, page after
    page, until a request fails, a page has no [items], or a page has no
    next token (or an empty one). *)
Inductive served (api : youtube_api) : option pystr -> list (list playlist_item) -> Prop :=
| served_error token e :
    api token = Raise e -> served api token []
| served_no_items token p :
    api token = Ok p -> page_items p = None -> served api token []
| served_last token p its :
    api token = Ok p -> page_items p = Some its ->
    truthy (nextPageToken p) = false ->
    served api token [its]
| served_next token p its c next rest :
    api token = Ok p -> page_items p = Some its ->
    nextPageToken p = Some (c :: next) ->
    served api (Some (c :: next)) rest ->
    served api token (its :: rest).

(** An item with the four keys the function reads without a default: the
    [snippet], its [title] and [resourceId], and the [videoId] of that. *)
Definition well_formed (it : playlist_item) : bool :=
  match item_snippet it with
  | Some sn =>
      match snippet_title sn, resourceId sn with
      | Some _, Some r =>
          match videoId r with
          | Some _ => true
          | None => false
          end
      | _, _ => false
      end
  | None => false
  end.

(** The item with all four keys, and with or without the channel. *)
Definition full_item (t v : pystr) (ch : option pystr) : playlist_item :=
  {| item_snippet :=
       Some {| snippet_title := Some t;
               resourceId := Some {| videoId := Some v |};
               videoOwnerChannelTitle := ch |} |}.

(** One item for each key that can be missing, between two full ones. *)
Definition mixed_items : list playlist_item :=
  [ full_item (py "Artist - Song") (py "a1") None;
    {| item_snippet := None |};
    {| item_snippet :=
         Some {| snippet_title := None;
                 resourceId := Some {| videoId := Some (py "x1") |};
                 videoOwnerChannelTitle := Some (py "Ch") |} |};
    {| item_snippet :=
         Some {| snippet_title := Some (py "No resource");
                 resourceId := None;
                 videoOwnerChannelTitle := Some (py "Ch") |} |};
    {| item_snippet :=
         Some {| snippet_title := Some (py "No id");
                 resourceId := Some {| videoId := None |};
                 videoOwnerChannelTitle := Some (py "Ch") |} |};
    full_item (py "Other - Tune") (py "b2") (Some (py "Other")) ].

(** Videos numbered from one, each with the short URL of its id. *)
Definition numbered (videos : list video) : Prop :=
  map position videos = seq 1 (List.length videos).

Definition short_url (v : video) : Prop := url v = py "https://youtu.be/" ++ video_id v.

(** The word that decides where a title goes: the first of the five, in the
    order of the [elif] chain, that its lower-cased text holds. *)
Definition first_word (title : pystr) : option string :=
  if has_word "cover" title then Some "cover"%string
  else if has_word "remix" title then Some "remix"%string
  else if has_word "live" title then Some "live"%string
  else if has_word "instrumental" title then Some "instrumental"%string
  else if has_word "mix" title then Some "mix"%string
  else None.

Definition goes_to (word : string) (title : pystr) : bool :=
  match first_word title with
  | Some w => String.eqb w word
  | None => false
  end.




(** The chunks that [add_tracks_to_playlist] cuts a list into. *)
Definition chunks (track_uris : list pystr) : list (list pystr) :=
  map (fun i => slice i (i + chunk_size) track_uris)
      (range_step (List.length track_uris) chunk_size).

(** [thins s t]: [t] comes from [s] by dropping characters and by writing a
    space for a blank. *)
Inductive thins : pystr -> pystr -> Prop :=
| thins_nil : thins [] []
| thins_drop x s t : thins s t -> thins (x :: s) t
| thins_keep x s t : thins s t -> thins (x :: s) (x :: t)
| thins_space x s t : Py.is_space x = true -> thins s t -> thins (x :: s) (32%N :: t).

Definition is_quote (c : N) : bool := Re.one_of [34; 39]%N c.

(** A character that is no blank, or is the space. *)
Definition plain (c : N) : bool := negb (Py.is_space c) || N.eqb c 32.

(** The characters one of which every pattern of the cascade needs: a blank,
    a hyphen, a dash, a colon, a pipe, a tilde or an opening quote. *)
Definition splits (c : N) : bool :=
  Py.is_space c
  || Re.one_of (py "-:|~" ++ [ExtractPatterns.en_dash; ExtractPatterns.em_dash;
                               34%N; ExtractPatterns.lquote]) c.

(** [needs P r]: every match of [r] consumes a character that satisfies [P]. *)
Fixpoint needs (P : N -> bool) (r : Re.regex) : Prop :=
  match r with
  | Re.Chr p => forall x, p x = true -> P x = true
  | Re.Cat r1 r2 => needs P r1 \/ needs P r2
  | Re.Alt r1 r2 => needs P r1 /\ needs P r2
  | Re.Grp _ r1 => needs P r1
  | _ => False
  end.

(** An API of two pages, the first with a malformed item, and one that fails
    at once; a playlist of 250 tracks; outcomes of both kinds. *)
Definition sample_item (t v : string) : playlist_item :=
  {| item_snippet :=
       Some {| snippet_title := Some (py t);
               resourceId := Some {| videoId := Some (py v) |};
               videoOwnerChannelTitle := None |} |}.

Definition broken_item : playlist_item := {| item_snippet := None |}.

Definition two_pages : youtube_api :=
  fun token =>
    match token with
    | None =>
        Ok {| page_items := Some [sample_item "Artist - Song" "a1"; broken_item];
              nextPageToken := Some (py "p2") |}
    | Some _ =>
        Ok {| page_items := Some [sample_item "Other - Tune" "b2"];
              nextPageToken := None |}
    end.

Definition many_uris : list pystr := map (fun k => [N.of_nat k]) (seq 0 250).

Definition always_ok : pystr -> list pystr -> result unit := fun _ _ => Ok tt.

Definition fails_on_second : pystr -> list pystr -> result unit :=
  fun _ chunk =>
    match chunk with
    | [100%N] :: _ => Raise (ClientError (py "rate limit"))
    | _ => Ok tt
    end.



(** An extractor returns a track whenever it returns: so do the program's
    own and the one with the detector's name put right. *)
Definition returns_track (extract : pystr -> result (option pystr * option pystr)) : Prop :=
  forall t artist track, extract t = Ok (artist, track) -> track <> None.

(** A client that fails on one query. *)
Definition fails_on_plain : client :=
  fun q => if Py.str_eqb q (py "Artist Song") then Raise (ClientError (py "timeout"))
           else Ok (Tracks []).

(** A text read from a file opened without [newline=""], as the matched
    file is read (the writer opens it with [newline=""] and writes the text
    as it is, quoted): a carriage return with the line feed after it, or
    alone, comes back as one line feed. *)
Fixpoint universal_newlines (s : pystr) : pystr :=
  match s with
  | [] => []
  | x :: s' =>
      if N.eqb x 13 then
        10%N :: match s' with
                | y :: s'' =>
                    if N.eqb y 10 then universal_newlines s'' else universal_newlines s'
                | [] => []
                end
      else x :: universal_newlines s'
  end.

(** The [spotify_url] column as it is read back from the matched file. *)
Definition url_column (rows : list matched_row) : list pystr :=
  map (fun r => universal_newlines (cell (mr_spotify_url r))) rows.



(** An error entry for [it]: no URI, no URL, the warning sign with the text
    of the exception in parentheses, and [q] as the query. *)
Definition error_entry (o : outcome) (it : video) (e : exn) (q : pystr) : Prop :=
  item o = it
  /\ spotify_uri o = None
  /\ spotify_url o = None
  /\ match_status o = warning_sign ++ py " (" ++ exn_str e ++ py ")"
  /\ query_used o = q.

(** A candidate without a hit. *)
Definition no_hit (search : client) (p : pystr) : Prop := search p = Ok (Tracks []).

(** The call for a candidate fails: the client raises, or its answer lacks
    a key that the loop reads. *)
Definition call_fails (search : client) (q : pystr) (e : exn) : Prop :=
  search q = Raise e \/ exists r, search q = Ok r /\ items_of r = Raise e.


(** An entry built by the [try] body: the extractor returned for the entry's
    item; of the candidates built from what it returned, those before the
    query of the entry had no hit; the client answered that query, with a
    hit or as the last candidate; the URI is that of the first hit, the URL
    and the mark go by the URI. *)
Definition answered (extract : pystr -> result (option pystr * option pystr))
           (search : client) (o : outcome) : Prop :=
  exists artist track tried q rest r items,
    extract (title (item o)) = Ok (artist, Some track)
    /\ py_iter (build_spotify_query artist track) = tried ++ q :: rest
    /\ Forall (no_hit search) tried
    /\ search q = Ok r
    /\ items_of r = Ok items
    /\ (items = [] -> rest = [])
    /\ query_used o = q
    /\ spotify_uri o = option_map uri (head items)
    /\ spotify_url o = (if truthy (spotify_uri o)
                        then option_map spotify_url_of (spotify_uri o) else None)
    /\ match_status o = (if truthy (spotify_uri o) then check_mark else cross_mark).


(** A text that begins with a blank, ends with one, or has two in a row. *)
Definition starts_blank (s : pystr) : bool :=
  match s with
  | x :: _ => Py.is_space x
  | [] => false
  end.

Definition ends_blank (s : pystr) : bool := starts_blank (rev s).

Fixpoint double_blank (s : pystr) : bool :=
  match s with
  | x :: s' => Py.is_space x && starts_blank s' || double_blank s'
  | [] => false
  end.

(** *** The brand suffix, after the claim's words

    A second definition of what the builder strips, written from the words
    of the claim and not from the pattern: a trailing brand suffix is
    [- topic], [vevo] or [official], the letters in any case, with the
    blanks before it (and after the hyphen), standing at the end of the
    artist or before its final newline. *)

(** What [$] accepts: the end of the text, or a final newline, which stays. *)
Definition line_end (s : pystr) : option pystr :=
  match s with
  | [] => Some []
  | [x] => if N.eqb x 10 then Some [x] else None
  | _ => None
  end.

(** [reads w s]: [s] begins with the word [w], letter case apart; what
    follows the word. *)
Fixpoint reads (w : pystr) (s : pystr) : option pystr :=
  match w with
  | [] => Some s
  | c :: w' =>
      match s with
      | x :: s' => if Re.nocase c x then reads w' s' else None
      | [] => None
      end
  end.

Definition ends_with_word (w : string) (s : pystr) : option pystr :=
  match reads (py w) s with
  | Some rest => line_end rest
  | None => None
  end.

(** [brand_at s]: the whole of [s] is a brand suffix; what stays of it (a
    final newline, or nothing). *)
Definition brand_at (s : pystr) : option pystr :=
  let u := Py.lstrip_by Py.is_space s in
  Re.orelse
    (match u with
     | x :: v => if N.eqb x 45 then ends_with_word "topic" (Py.lstrip_by Py.is_space v)
                 else None
     | [] => None
     end)
    (Re.orelse (ends_with_word "vevo" u) (ends_with_word "official" u)).

(** The artist without its trailing brand suffix, the longest one. *)
Fixpoint strip_brand_suffix (artist : pystr) : pystr :=
  match artist with
  | [] => []
  | x :: rest =>
      match brand_at artist with
      | Some tail => tail
      | None => x :: strip_brand_suffix rest
      end
  end.

(** * Properties *)

(** ** Strings *)

Module PyFacts.
Import Py.

Lemma str_eqb_eq (a b : str) : str_eqb a b = true <-> a = b.
Proof.
  unfold str_eqb. destruct (list_eq_dec N.eq_dec a b); split; congruence.
Qed.

Lemma str_eqb_neq (a b : str) : str_eqb a b = false <-> a <> b.
Proof.
  unfold str_eqb. destruct (list_eq_dec N.eq_dec a b); split; congruence.
Qed.

Lemma split_nonempty (sep : N) (s : str) : split sep s <> [].
Proof.
  destruct s as [|c s]; simpl; [discriminate|].
  destruct (N.eqb c sep); [discriminate|].
  destruct (split sep s); discriminate.
Qed.

(** A text without the separator is one field. *)
Lemma split_without (sep : N) (s : str) :
  mem sep s = false -> split sep s = [s].
Proof.
  induction s as [|c s IH]; simpl; intros H; [reflexivity|].
  apply orb_false_iff in H. destruct H as [Hc Hs].
  rewrite N.eqb_sym, Hc, (IH Hs). reflexivity.
Qed.

(** The fields of [pre ++ sep :: s] end with the fields of [s]. *)
Lemma split_app (sep : N) (pre s : str) :
  exists front, front <> [] /\ split sep (pre ++ sep :: s) = front ++ split sep s.
Proof.
  induction pre as [|c pre (front & Hne & IH)]; simpl.
  - rewrite N.eqb_refl. exists [[]]. split; [discriminate|reflexivity].
  - rewrite IH. destruct (N.eqb c sep).
    + exists ([] :: front). split; [discriminate|reflexivity].
    + destruct front as [|w ws]; [contradiction|].
      exists ((c :: w) :: ws). split; [discriminate|reflexivity].
Qed.

Lemma last_app_nonempty {A} (l l' : list A) (d : A) :
  l' <> [] -> last (l ++ l') d = last l' d.
Proof.
  intros H. induction l as [|x l IH]; simpl; [reflexivity|].
  rewrite IH. destruct (l ++ l') eqn:E; [|reflexivity].
  apply app_eq_nil in E. destruct E; contradiction.
Qed.

Lemma split_last_app (sep : N) (pre s : str) :
  split_last sep (pre ++ sep :: s) = split_last sep s.
Proof.
  unfold split_last. destruct (split_app sep pre s) as (front & _ & ->).
  apply last_app_nonempty, split_nonempty.
Qed.

Lemma split_last_without (sep : N) (pre s : str) :
  mem sep s = false -> split_last sep (pre ++ sep :: s) = s.
Proof.
  intros H. rewrite split_last_app. unfold split_last.
  rewrite (split_without _ _ H). reflexivity.
Qed.

(** The first field is the text before the first separator. *)
Lemma split_first_before (sep : N) (before after : str) :
  mem sep before = false -> split_first sep (before ++ sep :: after) = before.
Proof.
  unfold split_first. induction before as [|c before IH]; simpl; intros H.
  - now rewrite N.eqb_refl.
  - apply orb_false_iff in H. destruct H as [Hc Hb].
    rewrite N.eqb_sym, Hc. specialize (IH Hb).
    destruct (split sep (before ++ sep :: after)) as [|w ws] eqn:E.
    + now apply split_nonempty in E.
    + simpl in IH. now subst w.
Qed.

Lemma split_first_without (sep : N) (s : str) :
  mem sep s = false -> split_first sep s = s.
Proof.
  intros H. unfold split_first. now rewrite (split_without _ _ H).
Qed.

Lemma startswith_app (p s : str) : startswith p (p ++ s) = true.
Proof.
  induction p as [|c p IH]; simpl; [reflexivity|].
  now rewrite N.eqb_refl, IH.
Qed.

End PyFacts.

(** ** The matcher *)

Module ReFacts.
Import Re.

Lemma caps_grow_refl (c : caps) : caps_grow c c.
Proof. intros n H. exact H. Qed.

Lemma caps_grow_trans (c1 c2 c3 : caps) :
  caps_grow c1 c2 -> caps_grow c2 c3 -> caps_grow c1 c3.
Proof. intros H12 H23 n H. apply H23, H12, H. Qed.

Lemma caps_grow_cons (n : nat) (g : pystr) (c : caps) : caps_grow c ((n, g) :: c).
Proof. intros m H. simpl. destruct (Nat.eqb n m); [discriminate|exact H]. Qed.

Lemma reaches_here (k : cont) pos s c x : k pos s c = Some x -> reaches k s c x.
Proof.
  intros H. exists pos, [], s, c. split; [reflexivity|].
  split; [apply caps_grow_refl|exact H].
Qed.

Lemma reaches_trans (k k' : cont) (s : pystr) (c : caps) x :
  reaches k' s c x ->
  (forall pos' s' c', k' pos' s' c' = Some x -> reaches k s' c' x) ->
  reaches k s c x.
Proof.
  intros (pos1 & pre1 & s1 & c1 & -> & G1 & H1) H.
  destruct (H _ _ _ H1) as (pos2 & pre2 & s2 & c2 & -> & G2 & H2).
  exists pos2, (pre1 ++ pre2), s2, c2. rewrite app_assoc.
  split; [reflexivity|]. split; [eapply caps_grow_trans; eassumption|exact H2].
Qed.

Lemma orelse_some {A} (a b : option A) (x : A) :
  orelse a b = Some x -> a = Some x \/ b = Some x.
Proof. destruct a; simpl; auto. Qed.

Lemma rep_loop_reaches greedy body (k : cont) :
  (forall pos s c k' x, body pos s c k' = Some x -> reaches k' s c x) ->
  forall fuel pos s c x,
    rep_loop greedy body k fuel pos s c = Some x -> reaches k s c x.
Proof.
  intros Hbody. induction fuel as [|fuel IH]; intros pos s c x H; simpl in H.
  - destruct greedy; simpl in H.
    + now apply reaches_here in H.
    + apply orelse_some in H. destruct H as [H|H]; [|discriminate].
      now apply reaches_here in H.
  - assert (Hagain : body pos s c
                       (fun pos' s' c' =>
                          if Nat.eqb pos' pos then None
                          else rep_loop greedy body k fuel pos' s' c') = Some x
                     -> reaches k s c x).
    { intros Hb. apply Hbody in Hb. eapply reaches_trans; [exact Hb|].
      intros pos' s' c'. simpl. destruct (Nat.eqb pos' pos); [discriminate|].
      apply IH. }
    destruct greedy; apply orelse_some in H; destruct H as [H|H]; auto;
      now apply reaches_here in H.
Qed.

Lemma run_reaches (r : regex) :
  forall pos s c (k : cont) x, run r pos s c k = Some x -> reaches k s c x.
Proof.
  induction r as [|p|r1 IH1 r2 IH2|r1 IH1 r2 IH2|greedy r IH|n r IH| |];
    intros pos s c k x H; simpl in H.
  - now apply reaches_here in H.
  - destruct s as [|y s]; [discriminate|]. destruct (p y); [|discriminate].
    exists (S pos), [y], s, c. split; [reflexivity|].
    split; [apply caps_grow_refl|exact H].
  - apply IH1 in H. eapply reaches_trans; [exact H|]. intros pos' s' c'. apply IH2.
  - apply orelse_some in H. destruct H as [H|H]; [now apply IH1 in H|now apply IH2 in H].
  - eapply rep_loop_reaches; [|exact H]. intros. eapply IH; eassumption.
  - apply IH in H. destruct H as (pos' & pre & s' & c' & -> & G & H).
    exists pos', pre, s', ((n, firstn (pos' - pos) (pre ++ s')) :: c').
    split; [reflexivity|]. split; [|exact H].
    eapply caps_grow_trans; [exact G|apply caps_grow_cons].
  - destruct (Nat.eqb pos 0); [|discriminate]. now apply reaches_here in H.
  - destruct s as [|y [|z s]]; try discriminate.
    + now apply reaches_here in H.
    + destruct (N.eqb y 10); [|discriminate]. now apply reaches_here in H.
Qed.

(** What is left after a match is a suffix of the text. *)
Lemma match_at_suffix (r : regex) pos s rest c :
  match_at r pos s = Some (rest, c) -> exists pre, s = pre ++ rest.
Proof.
  intros H. apply run_reaches in H.
  destruct H as (pos' & pre & s' & c' & -> & _ & [= <- _]). now exists pre.
Qed.

(** A group that every way through the pattern captures is captured when the
    continuation is reached. *)
Lemma run_binds (n : nat) (r : regex) :
  binds n r = true ->
  forall pos s c (k : cont) x,
    run r pos s c k = Some x ->
    exists pos' s' c', group n c' <> None /\ k pos' s' c' = Some x.
Proof.
  induction r as [|p|r1 IH1 r2 IH2|r1 IH1 r2 IH2|greedy r IH|m r IH| |];
    simpl; intros Hb pos s c k x H; try discriminate.
  - apply orb_true_iff in Hb. destruct Hb as [Hb|Hb].
    + destruct (IH1 Hb _ _ _ _ _ H) as (pos1 & s1 & c1 & G1 & H1).
      apply run_reaches in H1. destruct H1 as (pos2 & pre & s2 & c2 & _ & G2 & H2).
      exists pos2, s2, c2. split; [apply G2, G1|exact H2].
    + apply run_reaches in H. destruct H as (pos1 & pre & s1 & c1 & _ & _ & H1).
      apply (IH2 Hb _ _ _ _ _ H1).
  - apply andb_true_iff in Hb. destruct Hb as [Hb1 Hb2].
    apply orelse_some in H. destruct H as [H|H]; [apply (IH1 Hb1 _ _ _ _ _ H)|].
    apply (IH2 Hb2 _ _ _ _ _ H).
  - apply orb_true_iff in Hb. destruct Hb as [Hb|Hb].
    + apply Nat.eqb_eq in Hb. subst m. apply run_reaches in H.
      destruct H as (pos' & pre & s' & c' & _ & _ & H).
      eexists _, _, _. split; [|exact H]. simpl. rewrite Nat.eqb_refl. discriminate.
    + destruct (IH Hb _ _ _ _ _ H) as (pos' & s' & c' & G & H').
      eexists _, _, _. split; [|exact H']. now apply caps_grow_cons.
Qed.

Lemma rmatch_binds (n : nat) (r : regex) (s : pystr) (m : caps) :
  binds n r = true -> rmatch r s = Some m -> group n m <> None.
Proof.
  intros Hb H. unfold rmatch, match_at in H.
  destruct (run r 0 s [] _) as [[rest c]|] eqn:E; [|discriminate].
  injection H as <-.
  destruct (run_binds n r Hb _ _ _ _ E) as (pos' & s' & c' & G & [= _ <-]).
  exact G.
Qed.

(** A pattern that ends with [$] leaves nothing after its match, or one
    final newline. *)
Lemma match_at_eol_rest (r : regex) pos s rest c :
  match_at (Cat r Eol) pos s = Some (rest, c) -> rest = [] \/ rest = [10%N].
Proof.
  unfold match_at. cbn [run]. intros H. apply run_reaches in H.
  destruct H as (pos' & pre & s' & c' & _ & _ & H).
  destruct s' as [|y [|z s']]; try discriminate.
  - injection H as <- _. now left.
  - destruct (N.eqb_spec y 10) as [-> |]; [|discriminate]. injection H as <- _. now right.
Qed.

(** Skipping [n] characters of a match resumes the scan [n] characters on. *)
Lemma sub_from_skip (r : regex) (repl : pystr) :
  forall n s pos, n <= List.length s ->
    sub_from r repl pos n s = sub_from r repl (n + pos) 0 (skipn n s).
Proof.
  induction n as [|n IH]; intros s pos Hn; [reflexivity|].
  destruct s as [|x s]; [simpl in Hn; lia|].
  cbn [sub_from skipn]. rewrite IH by (simpl in Hn; lia).
  now rewrite Nat.add_succ_r.
Qed.

End ReFacts.

(** ** The title normaliser *)

Module Shrink.

Lemma weight_pos (c : N) : 1 <= weight c.
Proof. unfold weight. destruct (_ && _); lia. Qed.

Lemma weight_le_two (c : N) : weight c <= 2.
Proof. unfold weight. destruct (_ && _); lia. Qed.

Lemma measure_cons (c : N) (s : pystr) : measure (c :: s) = weight c + measure s.
Proof. reflexivity. Qed.

Lemma measure_app (a b : pystr) : measure (a ++ b) = measure a + measure b.
Proof. unfold measure. now rewrite map_app, list_sum_app. Qed.

Lemma measure_rev (s : pystr) : measure (rev s) = measure s.
Proof.
  induction s as [|c s IH]; [reflexivity|].
  simpl rev. rewrite measure_app, IH, !measure_cons.
  change (measure []) with 0. lia.
Qed.

Lemma measure_bound (s : pystr) : measure s <= 2 * List.length s.
Proof.
  induction s as [|c s IH]; [reflexivity|].
  rewrite measure_cons. pose proof (weight_le_two c). simpl. lia.
Qed.

Lemma shrinks_le (f : pystr -> pystr) (s : pystr) :
  shrinks f -> measure (f s) <= measure s.
Proof. intros H. destruct (H s) as [-> | ?]; lia. Qed.

(** One more pass after [t], itself obtained from [s] by shrinking passes. *)
Lemma shrinks_after (f : pystr -> pystr) (t s : pystr) :
  shrinks f ->
  t = s \/ measure t < measure s ->
  f t = s \/ measure (f t) < measure s.
Proof.
  intros Hf [-> | Ht]; [apply Hf|].
  right. pose proof (shrinks_le t Hf). lia.
Qed.

(** *** Trimming *)

Lemma lstrip_by_le (p : N -> bool) (s : pystr) :
  measure (Py.lstrip_by p s) <= measure s.
Proof.
  induction s as [|c s IH]; simpl; [lia|].
  destruct (p c); [|lia]. rewrite measure_cons. lia.
Qed.

Lemma shrinks_lstrip_by (p : N -> bool) : shrinks (Py.lstrip_by p).
Proof.
  intros [|c s]; simpl; [now left|].
  destruct (p c); [right|now left].
  pose proof (lstrip_by_le p s). pose proof (weight_pos c).
  rewrite measure_cons. lia.
Qed.

Lemma shrinks_rstrip_by (p : N -> bool) : shrinks (Py.rstrip_by p).
Proof.
  intros s. unfold Py.rstrip_by.
  destruct (shrinks_lstrip_by p (rev s)) as [E | H].
  - left. now rewrite E, rev_involutive.
  - right. rewrite measure_rev. now rewrite measure_rev in H.
Qed.

Lemma shrinks_strip_by (p : N -> bool) : shrinks (Py.strip_by p).
Proof.
  intros s. unfold Py.strip_by.
  apply shrinks_after; [apply shrinks_rstrip_by|apply shrinks_lstrip_by].
Qed.

(** *** Substituting the empty string: whatever the pattern, the result is
    the text with some characters dropped. *)

Lemma sub_from_empty_le (r : Re.regex) (s : pystr) :
  forall pos skip, measure (Re.sub_from r [] pos skip s) <= measure s.
Proof.
  induction s as [|x s IH]; intros pos skip; cbn [Re.sub_from].
  - destruct skip, (Re.match_at r pos []); apply Nat.le_refl.
  - destruct skip as [|n].
    + destruct (Re.match_at r pos (x :: s)) as [[rest c]|].
      * destruct (List.length (x :: s) - List.length rest) as [|n];
          cbn [app]; rewrite ?measure_cons; specialize (IH (S pos));
          [specialize (IH 0)|specialize (IH n)]; lia.
      * rewrite !measure_cons. specialize (IH (S pos) 0). lia.
    + rewrite measure_cons. specialize (IH (S pos) n). lia.
Qed.

Lemma sub_from_empty_shrinks (r : Re.regex) (s : pystr) :
  forall pos,
    Re.sub_from r [] pos 0 s = s
    \/ measure (Re.sub_from r [] pos 0 s) < measure s.
Proof.
  induction s as [|x s IH]; intros pos; cbn [Re.sub_from].
  - left. now destruct (Re.match_at r pos []).
  - destruct (Re.match_at r pos (x :: s)) as [[rest c]|].
    + destruct (List.length (x :: s) - List.length rest) as [|n]; cbn [app].
      * destruct (IH (S pos)) as [-> | H]; [now left|right].
        rewrite !measure_cons. lia.
      * right. pose proof (sub_from_empty_le r s (S pos) n).
        pose proof (weight_pos x). rewrite measure_cons. lia.
    + destruct (IH (S pos)) as [-> | H]; [now left|right].
      rewrite !measure_cons. lia.
Qed.

Lemma shrinks_sub_empty (r : Re.regex) : shrinks (Re.sub r []).
Proof. intros s. apply sub_from_empty_shrinks. Qed.

(** *** Substituting one space for a run of blanks *)

Section SubSpace.

Variable r : Re.regex.
Variable need : nat.
Hypothesis need_pos : 1 <= need.
Hypothesis r_eats : eats_blanks need r.

Lemma sub_from_space_le (s : pystr) :
  forall pos skip,
    skip <= List.length s ->
    measure (Re.sub_from r (py " ") pos skip s) + skip <= measure s.
Proof.
  destruct r_eats as [Hnil Hcons].
  induction s as [|x s IH]; intros pos skip Hskip;
    cbn [List.length] in Hskip; cbn [Re.sub_from].
  - replace skip with 0 by lia. now rewrite Hnil.
  - destruct skip as [|n].
    + destruct (Re.match_at r pos (x :: s)) as [[rest c]|] eqn:E.
      * destruct (Hcons _ _ _ _ _ E) as [_ Hlen]. cbn [List.length] in Hlen |- *.
        destruct (S (List.length s) - List.length rest) as [|n] eqn:En; [lia|].
        change (py " " ++ ?t) with (32%N :: t). rewrite !measure_cons.
        assert (Hn : n <= List.length s) by lia.
        specialize (IH (S pos) n Hn). pose proof (weight_pos x).
        change (weight 32) with 1. lia.
      * rewrite !measure_cons. specialize (IH (S pos) 0). lia.
    + rewrite measure_cons. specialize (IH (S pos) n). pose proof (weight_pos x). lia.
Qed.

Lemma sub_from_space_shrinks (s : pystr) :
  forall pos,
    Re.sub_from r (py " ") pos 0 s = s
    \/ measure (Re.sub_from r (py " ") pos 0 s) < measure s.
Proof.
  destruct r_eats as [Hnil Hcons].
  induction s as [|x s IH]; intros pos; cbn [Re.sub_from].
  - left. now rewrite Hnil.
  - destruct (Re.match_at r pos (x :: s)) as [[rest c]|] eqn:E.
    + destruct (Hcons _ _ _ _ _ E) as [Hx Hlen]. cbn [List.length] in Hlen |- *.
      destruct (S (List.length s) - List.length rest) as [|n] eqn:En; [lia|].
      change (py " " ++ ?t) with (32%N :: t). rewrite !measure_cons.
      assert (Hn : n <= List.length s) by lia.
      pose proof (sub_from_space_le s (S pos) Hn) as Hle.
      change (weight 32) with 1.
      destruct (N.eqb_spec x 32) as [-> | Hne].
      * change (weight 32) with 1. destruct n as [|n].
        -- destruct (IH (S pos)) as [-> | H]; [now left|right; lia].
        -- right. lia.
      * right. assert (weight x = 2).
        { unfold weight. rewrite Hx. apply N.eqb_neq in Hne. now rewrite Hne. }
        lia.
    + destruct (IH (S pos)) as [-> | H]; [now left|right].
      rewrite !measure_cons. lia.
Qed.

Lemma shrinks_sub_space : shrinks (Re.sub r (py " ")).
Proof. intros s. apply sub_from_space_shrinks. Qed.

End SubSpace.

End Shrink.

Module Normaliser.
Import Shrink.

Lemma eats_blanks_one (r : Re.regex) : eats_blanks 1 (Re.Cat Re.ws r).
Proof.
  split; [reflexivity|].
  intros pos x s rest c H. unfold Re.match_at in H. cbn [Re.run Re.ws] in H.
  destruct (Py.is_space x); [|discriminate]. split; [reflexivity|].
  apply ReFacts.run_reaches in H.
  destruct H as (pos' & pre & s' & c' & -> & _ & [= <- _]).
  cbn [List.length]. rewrite length_app. lia.
Qed.

Lemma eats_blanks_two (r : Re.regex) : eats_blanks 2 (Re.Cat Re.ws (Re.Cat Re.ws r)).
Proof.
  split; [reflexivity|].
  intros pos x s rest c H. unfold Re.match_at in H. cbn [Re.run Re.ws] in H.
  destruct (Py.is_space x); [|discriminate]. split; [reflexivity|].
  destruct s as [|y s]; [discriminate|].
  destruct (Py.is_space y); [|discriminate].
  apply ReFacts.run_reaches in H.
  destruct H as (pos' & pre & s' & c' & -> & _ & [= <- _]).
  cbn [List.length]. rewrite length_app. lia.
Qed.

Lemma shrinks_collapse : shrinks (Re.sub Patterns.ws_plus (py " ")).
Proof. apply (@shrinks_sub_space _ 1); [lia|apply eats_blanks_one]. Qed.

Lemma shrinks_collapse_two : shrinks (Re.sub Patterns.ws_two_or_more (py " ")).
Proof. apply (@shrinks_sub_space _ 2); [lia|apply eats_blanks_two]. Qed.

Lemma shrinks_strip : shrinks Py.strip.
Proof. apply shrinks_strip_by. Qed.

Lemma shrinks_strip_chars (cs : pystr) : shrinks (Py.strip_chars cs).
Proof. apply shrinks_strip_by. Qed.

(** A pass of the normaliser leaves the title as it is or makes it smaller. *)
Lemma clean_title_shrinks : shrinks clean_title.
Proof.
  intros s. unfold clean_title.
  apply (shrinks_after shrinks_strip).
  apply (shrinks_after shrinks_collapse_two).
  apply (shrinks_after (shrinks_strip_chars separators)).
  apply (shrinks_after (shrinks_sub_empty Patterns.unwanted_re)).
  apply (shrinks_after (shrinks_strip_chars separators)).
  apply (shrinks_after shrinks_strip).
  apply (shrinks_after shrinks_collapse).
  apply (shrinks_after (shrinks_sub_empty Patterns.bracketed)).
  apply (shrinks_after shrinks_strip).
  apply (shrinks_after shrinks_collapse).
  apply (shrinks_after (shrinks_sub_empty Patterns.quotes)).
  apply (shrinks_after (shrinks_sub_empty Patterns.channel_suffix)).
  apply (shrinks_after (shrinks_sub_empty Patterns.promo_suffix)).
  now left.
Qed.

(** Passes that start from a title of measure at most [m] reach a fixed
    point within [m] of them. *)
Lemma fixed_point_within (m : nat) :
  forall x, measure x <= m ->
  exists n, n <= m /\ clean_title (Nat.iter n clean_title x) = Nat.iter n clean_title x.
Proof.
  induction m as [|m IH]; intros x Hx.
  - exists 0. split; [lia|]. simpl.
    destruct (clean_title_shrinks x) as [E | H]; [exact E|lia].
  - destruct (clean_title_shrinks x) as [E | H].
    + exists 0. split; [lia|exact E].
    + destruct (IH (clean_title x)) as (n & Hn & E); [lia|].
      exists (S n). split; [lia|]. now rewrite !Nat.iter_succ_r.
Qed.

End Normaliser.

(** C4, the claim as stated fails: the first pass removes the bracketed
    span and so uncovers a trailing word that only a second pass removes. *)
Lemma clean_title_not_idempotent :
  clean_title (py "Song Official (Video)") = py "Song Official"
  /\ clean_title (py "Song Official") = py "Song"
  /\ clean_title (clean_title (py "Song Official (Video)"))
     <> clean_title (py "Song Official (Video)").
Proof. repeat split; vm_compute; congruence. Qed.

(** C4, amended.  A pass either leaves the title unchanged or makes it
    strictly smaller, in length with blanks other than the space counted
    twice; so passes repeated from any title reach a title that the
    normaliser leaves unchanged, after at most twice as many passes as the
    title has characters. *)
Theorem clean_title_reaches_fixed_point (x : pystr) :
  (clean_title x = x \/ measure (clean_title x) < measure x)
  /\ exists n,
      n <= 2 * List.length x
      /\ clean_title (Nat.iter n clean_title x) = Nat.iter n clean_title x.
Proof.
  split; [apply Normaliser.clean_title_shrinks|].
  destruct (Normaliser.fixed_point_within x (Nat.le_refl (measure x))) as (n & Hn & E).
  exists n. split; [|exact E].
  pose proof (Shrink.measure_bound x). lia.
Qed.

(** ** The special-case detector *)

(** On a title that holds one of the mix words, in any case, the detector
    gives no artist and, as track, the text before the first pipe, trimmed; a
    title without a pipe is taken whole. *)
Lemma handle_special_cases_mix (title : pystr) :
  any_in mix_words (Py.lower title) = true ->
  (forall before after,
      title = before ++ pipe :: after -> Py.mem pipe before = false ->
      handle_special_cases title = (None, Some (Py.strip before)))
  /\ (Py.mem pipe title = false ->
      handle_special_cases title = (None, Some (Py.strip title))).
Proof.
  intros H. unfold handle_special_cases. rewrite H. split.
  - intros before after -> Hb. now rewrite PyFacts.split_first_before.
  - intros Hp. now rewrite PyFacts.split_first_without.
Qed.

Example handle_special_cases_mix_example :
  handle_special_cases (py "VARIOUS ARTISTS - Summer Mix 2023")
  = (None, Some (py "VARIOUS ARTISTS - Summer Mix 2023"))
  /\ handle_special_cases (py "Math Rock Mix | Vol. 2")
     = (None, Some (py "Math Rock Mix")).
Proof. split; vm_compute; reflexivity. Qed.

(** C10.  The claim holds on its own example; with the word capitalised the
    case-insensitive search still finds the artist, but the substitution that
    should remove the span has no flag and leaves the title whole. *)
Theorem cover_span_kept_when_capitalised :
  handle_special_cases (py "Jane Doe (John Smith cover)")
  = (Some (py "John Smith"), Some (py "Jane Doe"))
  /\ handle_special_cases (py "Jane Doe (John Smith Cover)")
     = (Some (py "John Smith"), Some (py "Jane Doe (John Smith Cover)")).
Proof. split; vm_compute; reflexivity. Qed.

(** ** The extractor *)

(** The module binds [handle_special_cases]; the name called is another. *)
Lemma called_name_unbound : lookup_global "handle_special_casese" module_globals = None.
Proof. reflexivity. Qed.

Lemma detector_name_bound :
  lookup_global "handle_special_cases" module_globals
  = Some (ObjTitleToPair handle_special_cases).
Proof. reflexivity. Qed.

Lemma extract_unbound (title : pystr) :
  extract_artist_track title = Raise (NameError "handle_special_casese").
Proof. unfold extract_artist_track. now rewrite called_name_unbound. Qed.

(** C1.  The claim is that extraction returns normally, with a track, on
    every title.  The function's first statement calls a name that nothing
    binds, so every call ends in [NameError]. *)
Theorem extract_artist_track_raises (title : pystr) :
  extract_artist_track title = Raise (NameError "handle_special_casese").
Proof. unfold extract_artist_track. now rewrite called_name_unbound. Qed.

(** Were the call to reach the detector, every title would get a track: the
    detector gives an artist only together with a track, and the cascade and
    its fallback always give one. *)
Lemma cascade_track_present (patterns : list Re.regex) (title : pystr) artist track :
  cascade patterns title = Ok (artist, track) -> track <> None.
Proof.
  induction patterns as [|p ps IH]; simpl.
  - intros [= _ <-]. discriminate.
  - destruct (Re.rmatch p title) as [m|]; [|exact IH].
    destruct (group_stripped 1 m); simpl; [|discriminate].
    destruct (group_stripped 2 m); simpl; [|discriminate].
    intros [= _ <-]. discriminate.
Qed.

Lemma extract_with_track_present (title : pystr) artist track :
  extract_with handle_special_cases title = Ok (artist, track) -> track <> None.
Proof.
  unfold extract_with.
  destruct (handle_special_cases title) as [a t] eqn:E.
  destruct a as [a|]; [|apply cascade_track_present].
  intros [= _ <-]. revert E. unfold handle_special_cases.
  destruct (any_in mix_words _); [discriminate|].
  destruct (any_in album_words _); [discriminate|].
  destruct (Re.search _ _); intros [= _ <-]; discriminate.
Qed.

(** With the call resolved to the detector the extractor returns on every
    title, and with a track: each of the fifteen patterns captures its first
    two groups on every way through it, so neither [strip] can fail. *)
Lemma patterns_bind_groups :
  forallb (fun p => binds 1 p && binds 2 p) ExtractPatterns.patterns = true.
Proof. reflexivity. Qed.

Lemma cascade_returns (patterns : list Re.regex) (title : pystr) :
  forallb (fun p => binds 1 p && binds 2 p) patterns = true ->
  exists artist track, cascade patterns title = Ok (artist, Some track).
Proof.
  induction patterns as [|p ps IH]; simpl; intros H.
  - now exists None, title.
  - apply andb_true_iff in H. destruct H as [Hp Hps].
    apply andb_true_iff in Hp. destruct Hp as [H1 H2].
    destruct (Re.rmatch p title) as [m|] eqn:E; [|now apply IH].
    pose proof (ReFacts.rmatch_binds _ _ _ H1 E) as G1.
    pose proof (ReFacts.rmatch_binds _ _ _ H2 E) as G2.
    unfold group_stripped.
    destruct (Re.group 1 m); [|contradiction].
    destruct (Re.group 2 m); [|contradiction].
    simpl. eauto.
Qed.

Lemma extract_with_returns (title : pystr) :
  exists artist track,
    extract_with handle_special_cases title = Ok (artist, Some track).
Proof.
  unfold extract_with.
  destruct (handle_special_cases title) as [a t] eqn:E.
  destruct a as [a|]; [|apply cascade_returns, patterns_bind_groups].
  revert E. unfold handle_special_cases.
  destruct (any_in mix_words _); [discriminate|].
  destruct (any_in album_words _); [discriminate|].
  destruct (Re.search _ _); [|discriminate]. intros [= _ <-]. eauto.
Qed.

(** The first scenario of the specification, on the extractor so resolved. *)
Example extract_with_scenario :
  clean_title (py "Artist Name - Song Title (Official Video)") = py "Artist Name - Song Title"
  /\ extract_with handle_special_cases (py "Artist Name - Song Title (Official Video)")
     = Ok (Some (py "Artist Name"), Some (py "Song Title")).
Proof. split; vm_compute; reflexivity. Qed.

(** C2.  The claim is that a pair of the detector with a track and no
    artist is returned at once.  On every such title the extractor raises at
    its first line instead, the name it calls there being bound nowhere; and
    with that name read as the detector's, the guard on the line after it
    asks for the artist, not the track, so the pair is dropped and the title
    goes on to the normaliser and the cascade. *)
Theorem special_case_result_not_returned (title track : pystr) :
  handle_special_cases title = (None, Some track) ->
  extract_artist_track title = Raise name_error
  /\ extract_artist_track title <> Ok (None, Some track)
  /\ extract_with handle_special_cases title
     = cascade ExtractPatterns.patterns (clean_title title).
Proof.
  intros H. split; [apply extract_unbound|]. split.
  - rewrite extract_unbound. discriminate.
  - unfold extract_with. now rewrite H.
Qed.

Lemma special_case_result_not_returned_witness :
  handle_special_cases (py "VARIOUS ARTISTS - Summer Mix 2023")
  = (None, Some (py "VARIOUS ARTISTS - Summer Mix 2023"))
  /\ extract_artist_track (py "VARIOUS ARTISTS - Summer Mix 2023") = Raise name_error
  /\ extract_with handle_special_cases (py "VARIOUS ARTISTS - Summer Mix 2023")
     = Ok (Some (py "VARIOUS ARTISTS"), Some (py "Summer Mix 2023")).
Proof.
  split; [vm_compute; reflexivity|].
  destruct (@special_case_result_not_returned
              (py "VARIOUS ARTISTS - Summer Mix 2023")
              (py "VARIOUS ARTISTS - Summer Mix 2023") eq_refl) as (H1 & _ & H2).
  split; [exact H1|]. rewrite H2. vm_compute. reflexivity.
Defined.

(** ** The query builder *)

(** The branch taken by the builder. *)
Lemma build_spotify_query_text (artist : option pystr) (track : pystr) :
  truthy artist = false \/ is_various_artists artist = true ->
  build_spotify_query artist track = VStr (py "track:" ++ track).
Proof.
  unfold build_spotify_query. destruct artist as [a|]; [|reflexivity].
  intros [-> | ->]; simpl; [reflexivity|]. now rewrite orb_true_r.
Qed.

Lemma build_spotify_query_list (artist track : pystr) :
  truthy (Some artist) = true -> is_various_artists (Some artist) = false ->
  build_spotify_query (Some artist) track
  = VList [ py "artist:" ++ Re.sub brand_suffix [] artist ++ py " track:" ++ track;
            Re.sub brand_suffix [] artist ++ py " " ++ track;
            track ].
Proof.
  unfold build_spotify_query. intros -> ->. reflexivity.
Qed.

(** C3.  Without an artist the builder returns the text itself, not a list
    holding it: the loop over the candidates then visits its characters one
    by one, so there is never a single candidate. *)
Theorem build_spotify_query_no_artist (track : pystr) :
  build_spotify_query None track = VStr (py "track:" ++ track)
  /\ py_iter (build_spotify_query None track)
     = map (fun c => [c]) (py "track:" ++ track)
  /\ py_iter (build_spotify_query None track) <> [py "track:" ++ track]
  /\ py_iter (build_spotify_query None (py "Song"))
     = [py "t"; py "r"; py "a"; py "c"; py "k"; py ":"; py "S"; py "o"; py "n"; py "g"].
Proof.
  repeat split; try reflexivity. simpl. discriminate.
Qed.

(** The brand suffix needs a letter: it matches neither the empty text nor a
    lone newline. *)
Lemma brand_suffix_not_at_end (pos : nat) :
  Re.match_at brand_suffix pos [] = None /\ Re.match_at brand_suffix pos [10%N] = None.
Proof.
  split; [reflexivity|].
  assert (E : Nat.eqb (S pos) pos = false) by (apply Nat.eqb_neq; lia).
  unfold Re.match_at, brand_suffix. cbn -[Nat.eqb]. rewrite !E. reflexivity.
Qed.

(** What the substitution removes from an artist is one block at its end,
    or just before a final newline. *)
Lemma brand_suffix_block (s : pystr) :
  forall pos, exists kept removed tail,
    s = kept ++ removed ++ tail
    /\ Re.sub_from brand_suffix [] pos 0 s = kept ++ tail
    /\ (tail = [] \/ tail = [10%N]).
Proof.
  induction s as [|x s IH]; intros pos.
  - exists [], [], []. cbn [Re.sub_from].
    rewrite (proj1 (brand_suffix_not_at_end pos)). auto.
  - cbn [Re.sub_from].
    destruct (Re.match_at brand_suffix pos (x :: s)) as [[rest c]|] eqn:E.
    + assert (Hrest : rest = [] \/ rest = [10%N])
        by (eapply ReFacts.match_at_eol_rest with (r := Re.Grp 1 _); exact E).
      assert (Hsuf : exists pre, x :: s = pre ++ rest)
        by (eapply ReFacts.match_at_suffix; exact E).
      destruct Hsuf as (pre & Hpre).
      destruct pre as [|y pre].
      * exfalso. simpl in Hpre. subst rest.
        destruct Hrest as [Hr | Hr]; [discriminate|].
        injection Hr as -> ->.
        rewrite (proj2 (brand_suffix_not_at_end pos)) in E. discriminate.
      * injection Hpre as <- ->.
        replace (List.length (x :: pre ++ rest) - List.length rest)
          with (S (List.length pre)) by (cbn [List.length]; rewrite length_app; lia).
        cbn [app]. rewrite ReFacts.sub_from_skip by (rewrite length_app; lia).
        rewrite skipn_app, skipn_all, Nat.sub_diag. cbn [skipn app].
        exists [], (x :: pre), rest. split; [reflexivity|]. split; [|exact Hrest].
        destruct Hrest as [-> | ->]; cbn [Re.sub_from].
        -- now rewrite (proj1 (brand_suffix_not_at_end _)).
        -- rewrite (proj2 (brand_suffix_not_at_end _)).
           now rewrite (proj1 (brand_suffix_not_at_end _)).
    + destruct (IH (S pos)) as (kept & removed & tail & -> & -> & Ht).
      exists (x :: kept), removed, tail. auto.
Qed.

(** *** The pattern against the claim's words *)

Module Brand.

Lemma map_fst_orelse {A B} (a b : option (A * B)) :
  option_map fst (Re.orelse a b) = Re.orelse (option_map fst a) (option_map fst b).
Proof. destruct a; reflexivity. Qed.

Lemma orelse_none {A} (a : option A) : Re.orelse a None = a.
Proof. destruct a; reflexivity. Qed.

(** No blank is a letter of either case, or one of the code points that the
    engine folds onto a letter. *)
Lemma letter_not_blank (a x : N) :
  (97 <=? a)%N && (a <=? 122)%N = true ->
  Py.is_space x = true -> Re.nocase a x = false.
Proof.
  intros Ha Hx. unfold Re.nocase. rewrite Ha.
  apply andb_true_iff in Ha. destruct Ha as [Ha1 Ha2].
  apply N.leb_le in Ha1. apply N.leb_le in Ha2.
  unfold Py.is_space in Hx.
  repeat rewrite ?orb_true_iff, ?andb_true_iff, ?N.leb_le, ?N.eqb_eq in Hx.
  repeat rewrite ?orb_false_iff, ?andb_false_iff, ?N.eqb_neq. lia.
Qed.

(** A word after which the line ends. *)
Lemma run_word (k : Re.cont) (w : pystr) :
  (forall pos s c, option_map fst (k pos s c) = line_end s) ->
  forall pos s c,
    option_map fst (Re.run (Re.cat (map (fun a => Re.Chr (Re.nocase a)) w)) pos s c k)
    = match reads w s with
      | Some rest => line_end rest
      | None => None
      end.
Proof.
  intros Hk. induction w as [|a w IH]; intros pos s c; [apply Hk|].
  destruct w as [|b w].
  - cbn [map Re.cat Re.run reads]. destruct s as [|x s]; [reflexivity|].
    destruct (Re.nocase a x); [apply Hk|reflexivity].
  - change (Re.cat (map (fun a => Re.Chr (Re.nocase a)) (a :: b :: w)))
      with (Re.Cat (Re.Chr (Re.nocase a))
                   (Re.cat (map (fun a => Re.Chr (Re.nocase a)) (b :: w)))).
    cbn [Re.run]. change (reads (a :: b :: w) s)
      with (match s with
            | x :: s' => if Re.nocase a x then reads (b :: w) s' else None
            | [] => None
            end).
    destruct s as [|x s]; [reflexivity|].
    destruct (Re.nocase a x); [apply IH|reflexivity].
Qed.

(** Greedy blanks before something that does not begin with a blank: all
    the blanks are taken. *)
Lemma blanks_then (k : Re.cont) (g : pystr -> option pystr) :
  (forall pos s c, option_map fst (k pos s c) = g s) ->
  (forall s, starts_blank s = true -> g s = None) ->
  forall s fuel pos c,
    List.length s <= fuel ->
    option_map fst (Re.rep_loop true (Re.run Re.ws) k fuel pos s c)
    = g (Py.lstrip_by Py.is_space s).
Proof.
  intros Hk Hg. induction s as [|x s IH]; intros fuel pos c Hf.
  - destruct fuel; cbn [Re.rep_loop Re.run Re.ws Re.orelse]; apply Hk.
  - destruct fuel as [|fuel]; [simpl in Hf; lia|].
    cbn [Re.rep_loop Re.run Re.ws Py.lstrip_by]. destruct (Py.is_space x) eqn:Hx.
    + replace (Nat.eqb (S pos) pos) with false by (symmetry; apply Nat.eqb_neq; lia).
      rewrite map_fst_orelse, IH by (simpl in Hf; lia).
      rewrite Hk, (Hg (x :: s)) by exact Hx. apply orelse_none.
    + cbn [Re.orelse]. apply Hk.
Qed.

Lemma word_not_at_blank (w : string) (a : N) (w' : pystr) :
  py w = a :: w' -> (97 <=? a)%N && (a <=? 122)%N = true ->
  forall s, starts_blank s = true -> ends_with_word w s = None.
Proof.
  intros Hw Ha [|x s] Hs; [discriminate|]. unfold ends_with_word. rewrite Hw.
  cbn [reads]. simpl in Hs. now rewrite (letter_not_blank a x Ha Hs).
Qed.

(** Blanks and a word, then the end of the line. *)
Lemma run_blanks_word (k : Re.cont) (w : string) (a : N) (w' : pystr) :
  py w = a :: w' -> (97 <=? a)%N && (a <=? 122)%N = true ->
  (forall pos s c, option_map fst (k pos s c) = line_end s) ->
  forall pos s c,
    option_map fst (Re.run (Re.Cat Patterns.ws_star (Re.iword w)) pos s c k)
    = ends_with_word w (Py.lstrip_by Py.is_space s).
Proof.
  intros Hw Ha Hk pos s c. cbn [Re.run Patterns.ws_star].
  apply (@blanks_then _ (ends_with_word w)).
  - intros pos' s' c'. unfold Re.iword, ends_with_word. now apply run_word.
  - now apply (word_not_at_blank w Hw Ha).
  - apply Nat.le_refl.
Qed.

(** At any position the pattern matches exactly where the rest of the text
    is a brand suffix, and leaves what [brand_at] says. *)
Lemma match_at_brand (pos : nat) (s : pystr) :
  option_map fst (Re.match_at brand_suffix pos s) = brand_at s.
Proof.
  unfold Re.match_at, brand_suffix.
  cbn [Re.cat Re.alt]. cbn [Re.run].
  set (k := fun (pos' : nat) (s' : pystr) (c' : Re.caps) =>
              Re.run Re.Eol pos' s' ((1, firstn (pos' - pos) s) :: c')
                     (fun _ s'' c'' => Some (s'', c''))).
  assert (Hk : forall pos' s' c', option_map fst (k pos' s' c') = line_end s').
  { intros pos' s' c'. unfold k, line_end. cbn [Re.run].
    destruct s' as [|x [|y s']]; [reflexivity| |reflexivity].
    destruct (N.eqb x 10); reflexivity. }
  rewrite !map_fst_orelse. unfold brand_at. cbv zeta. f_equal; [|f_equal].
  - change (Re.run (Re.Cat Patterns.ws_star ?r) pos s [] k)
      with (Re.rep_loop true (Re.run Re.ws)
                        (fun pos' s' c' => Re.run r pos' s' c' k)
                        (List.length s) pos s []).
    apply (@blanks_then _
             (fun u => match u with
                       | x :: v =>
                           if N.eqb x 45
                           then ends_with_word "topic" (Py.lstrip_by Py.is_space v)
                           else None
                       | [] => None
                       end)); [| |apply Nat.le_refl].
    + intros pos' [|x v] c'; [reflexivity|]. cbn [Re.run Patterns.chr].
      unfold Re.one_of, Py.mem. simpl existsb. rewrite orb_false_r.
      destruct (N.eqb x 45); [|reflexivity].
      now apply (@run_blanks_word k "topic" 116%N (py "opic")).
    + intros [|x v] Hs; [discriminate|]. simpl in Hs.
      destruct (N.eqb_spec x 45) as [->|_]; [discriminate|reflexivity].
  - now apply (@run_blanks_word k "vevo" 118%N (py "evo")).
  - now apply (@run_blanks_word k "official" 111%N (py "fficial")).
Qed.

(** The substitution removes the trailing brand suffix, the longest one. *)
Lemma sub_from_brand (s : pystr) :
  forall pos, Re.sub_from brand_suffix [] pos 0 s = strip_brand_suffix s.
Proof.
  induction s as [|x s IH]; intros pos; cbn [Re.sub_from strip_brand_suffix].
  - now rewrite (proj1 (brand_suffix_not_at_end pos)).
  - pose proof (match_at_brand pos (x :: s)) as Hm.
    destruct (Re.match_at brand_suffix pos (x :: s)) as [[rest c]|] eqn:E;
      simpl in Hm; rewrite <- Hm.
    + assert (Hrest : rest = [] \/ rest = [10%N])
        by (eapply ReFacts.match_at_eol_rest with (r := Re.Grp 1 _); exact E).
      assert (Hsuf : exists pre, x :: s = pre ++ rest)
        by (eapply ReFacts.match_at_suffix; exact E).
      destruct Hsuf as (pre & Hpre).
      destruct pre as [|y pre].
      * exfalso. simpl in Hpre. subst rest.
        destruct Hrest as [Hr | Hr]; [discriminate|].
        injection Hr as -> ->.
        rewrite (proj2 (brand_suffix_not_at_end pos)) in E. discriminate.
      * injection Hpre as <- ->.
        replace (List.length (x :: pre ++ rest) - List.length rest)
          with (S (List.length pre)) by (cbn [List.length]; rewrite length_app; lia).
        cbn [app]. rewrite ReFacts.sub_from_skip by (rewrite length_app; lia).
        rewrite skipn_app, skipn_all, Nat.sub_diag. cbn [skipn app].
        destruct Hrest as [-> | ->]; cbn [Re.sub_from].
        -- now rewrite (proj1 (brand_suffix_not_at_end _)).
        -- rewrite (proj2 (brand_suffix_not_at_end _)).
           now rewrite (proj1 (brand_suffix_not_at_end _)).
    + now rewrite IH.
Qed.

Lemma sub_brand (artist : pystr) :
  Re.sub brand_suffix [] artist = strip_brand_suffix artist.
Proof. apply sub_from_brand. Qed.

End Brand.

(** C8, the claim as stated fails: an artist that is present but empty, or
    that reads various artists, gets the text of the track-only query and
    not three candidates. *)
Lemma present_artist_without_three_candidates :
  build_spotify_query (Some (py "")) (py "Song") = VStr (py "track:Song")
  /\ build_spotify_query (Some (py "Various Artists")) (py "Song") = VStr (py "track:Song")
  /\ List.length (py_iter (build_spotify_query (Some (py "")) (py "Song"))) <> 3.
Proof. repeat split; vm_compute; congruence. Qed.

(** C8, amended.  For an artist that is not empty and does not read various
    artists in any case, the builder returns three candidates in this order:
    the field-scoped query, the free-text query and the track.  The artist
    in them is the artist without its trailing brand suffix: [- topic],
    [vevo] or [official], the letters in any case, with the blanks before it
    and after the hyphen, standing at the end of the artist or before its
    final newline. *)
Theorem build_spotify_query_three (artist track : pystr) :
  artist <> [] ->
  Py.lower artist <> py "various artists" ->
  build_spotify_query (Some artist) track
  = VList [ py "artist:" ++ strip_brand_suffix artist ++ py " track:" ++ track;
            strip_brand_suffix artist ++ py " " ++ track;
            track ]
  /\ py_iter (build_spotify_query (Some artist) track)
     = [ py "artist:" ++ strip_brand_suffix artist ++ py " track:" ++ track;
         strip_brand_suffix artist ++ py " " ++ track;
         track ]
  /\ exists kept removed tail,
      artist = kept ++ removed ++ tail
      /\ strip_brand_suffix artist = kept ++ tail
      /\ (tail = [] \/ tail = [10%N]).
Proof.
  intros Hne Hva. rewrite <- (Brand.sub_brand artist).
  assert (E : build_spotify_query (Some artist) track
              = VList [ py "artist:" ++ Re.sub brand_suffix [] artist
                          ++ py " track:" ++ track;
                        Re.sub brand_suffix [] artist ++ py " " ++ track;
                        track ]).
  { apply build_spotify_query_list.
    - destruct artist; [contradiction|reflexivity].
    - simpl. now apply PyFacts.str_eqb_neq. }
  rewrite E. split; [reflexivity|]. split; [reflexivity|].
  apply brand_suffix_block.
Qed.

Lemma build_spotify_query_three_witness :
  py "The Band - Topic" <> []
  /\ Py.lower (py "The Band - Topic") <> py "various artists"
  /\ build_spotify_query (Some (py "The Band - Topic")) (py "Song")
     = VList [py "artist:The Band track:Song"; py "The Band Song"; py "Song"]
  /\ build_spotify_query (Some (py "BandVEVO")) (py "Song")
     = VList [py "artist:Band track:Song"; py "Band Song"; py "Song"]
  /\ build_spotify_query (Some (py "Band  OFFICIAL")) (py "Song")
     = VList [py "artist:Band track:Song"; py "Band Song"; py "Song"].
Proof.
  assert (H1 : py "The Band - Topic" <> []) by (vm_compute; discriminate).
  assert (H2 : Py.lower (py "The Band - Topic") <> py "various artists")
    by (vm_compute; discriminate).
  assert (H3 : py "BandVEVO" <> []) by (vm_compute; discriminate).
  assert (H4 : Py.lower (py "BandVEVO") <> py "various artists")
    by (vm_compute; discriminate).
  assert (H5 : py "Band  OFFICIAL" <> []) by (vm_compute; discriminate).
  assert (H6 : Py.lower (py "Band  OFFICIAL") <> py "various artists")
    by (vm_compute; discriminate).
  split; [exact H1|]. split; [exact H2|].
  split; [exact (proj1 (build_spotify_query_three (py "Song") H1 H2))|].
  split; [exact (proj1 (build_spotify_query_three (py "Song") H3 H4))|].
  exact (proj1 (build_spotify_query_three (py "Song") H5 H6)).
Defined.

(** The three suffixes, each stripped with the blanks before it, by the
    pattern and by the words of the claim alike. *)
Example brand_suffix_stripped :
  Re.sub brand_suffix [] (py "The Band - Topic") = py "The Band"
  /\ Re.sub brand_suffix [] (py "BandVEVO") = py "Band"
  /\ Re.sub brand_suffix [] (py "Band Official") = py "Band"
  /\ Re.sub brand_suffix [] (py "Topical Band") = py "Topical Band"
  /\ strip_brand_suffix (py "The Band -  TOPIC") = py "The Band"
  /\ strip_brand_suffix (py "Band vEvO") = py "Band"
  /\ strip_brand_suffix (py "Official Band") = py "Official Band".
Proof. repeat split; vm_compute; reflexivity. Qed.

(** ** The matching loop *)

Lemma count_found_app (os : list outcome) (o : outcome) :
  count_found (os ++ [o]) = count_found os + (if has_uri o then 1 else 0).
Proof.
  unfold count_found. rewrite filter_app, length_app. simpl.
  destruct (has_uri o); reflexivity.
Qed.

Lemma for_queries_bound (search : client) (queries : list pystr) :
  forall lc lc' err,
    for_queries search queries lc = (lc', err) ->
    bound_together lc -> bound_together lc'.
Proof.
  induction queries as [|q rest IH]; simpl; intros lc lc' err.
  - now intros [= <- _].
  - destruct (search q) as [r|e].
    + destruct (items_of r) as [[|best more]|e].
      * intros H _. apply (IH _ _ _ H). unfold bound_together. simpl. discriminate.
      * intros [= <- _] _. unfold bound_together. simpl. discriminate.
      * intros [= <- _] _. unfold bound_together. simpl. discriminate.
    + intros [= <- _] Hb. unfold bound_together in *. simpl. discriminate.
Qed.

(** The candidates are tried in order and the first one with a hit ends the
    loop, [query] and [result] being left at that candidate. *)
Lemma for_queries_first_hit (search : client) (before : list pystr) :
  forall q after best more lc,
    Forall (fun p => search p = Ok (Tracks [])) before ->
    search q = Ok (Tracks (best :: more)) ->
    for_queries search (before ++ q :: after) lc
    = ({| query := Some q; result_ := Some (Tracks (best :: more)) |}, None).
Proof.
  induction before as [|p before IH]; simpl; intros q after best more lc Hb Hq.
  - now rewrite Hq.
  - inversion Hb as [|? ? Hp Hb']; subst. rewrite Hp. simpl. now apply IH.
Qed.

(** No candidate has a hit: the loop ends at the last one. *)
Lemma for_queries_no_hit (search : client) (queries : list pystr) :
  forall q lc,
    Forall (fun p => search p = Ok (Tracks [])) (queries ++ [q]) ->
    for_queries search (queries ++ [q]) lc
    = ({| query := Some q; result_ := Some (Tracks []) |}, None).
Proof.
  induction queries as [|p queries IH]; simpl; intros q lc Hb.
  - inversion Hb as [|? ? Hq _]; subst. now rewrite Hq.
  - inversion Hb as [|? ? Hp Hb']; subst. rewrite Hp. simpl. now apply IH.
Qed.

(** An exception of the client leaves [query] at the candidate in flight. *)
Lemma for_queries_raise (search : client) (before : list pystr) :
  forall q after e lc,
    Forall (fun p => search p = Ok (Tracks [])) before ->
    search q = Raise e ->
    for_queries search (before ++ q :: after) lc
    = ({| query := Some q;
          result_ := match before with [] => result_ lc | _ => Some (Tracks []) end |},
       Some e).
Proof.
  induction before as [|p before IH]; simpl; intros q after e lc Hb Hq.
  - now rewrite Hq.
  - inversion Hb as [|? ? Hp Hb']; subst. rewrite Hp. simpl.
    rewrite (IH _ _ _ _ Hb' Hq). simpl. now destruct before.
Qed.

Section MatchingFacts.

Variable extract : pystr -> result (option pystr * option pystr).
Variable search : client.

(** Every item adds exactly one outcome, its own, whatever happens to it. *)
Lemma process_item_one_outcome (st : state) (it : video) :
  exists o, results (process_item extract search st it) = results st ++ [o]
            /\ item o = it.
Proof.
  unfold process_item, try_body.
  destruct (extract (title it)) as [[artist track]|e]; [|eexists; split; reflexivity].
  destruct (for_queries search _ (vars st)) as [lc [e|]]; [eexists; split; reflexivity|].
  destruct (result_ lc) as [r|]; [|eexists; split; reflexivity].
  destruct (items_of r) as [items|e]; [|eexists; split; reflexivity].
  destruct (option_map uri (hd_error items)); simpl;
    destruct (query lc); eexists; split; reflexivity.
Qed.

Lemma fold_process_items (video_data : list video) :
  forall st, exists os,
    results (fold_left (process_item extract search) video_data st) = results st ++ os
    /\ map item os = video_data.
Proof.
  induction video_data as [|it vd IH]; simpl; intros st.
  - exists []. now rewrite app_nil_r.
  - destruct (process_item_one_outcome st it) as (o & Ho & Hi).
    destruct (IH (process_item extract search st it)) as (os & Hos & Hm).
    exists (o :: os). rewrite Hos, Ho, <- app_assoc. simpl. now rewrite Hi, Hm.
Qed.

Lemma process_item_in_step (st : state) (it : video) :
  in_step st -> in_step (process_item extract search st it).
Proof.
  intros [Hm Hb]. unfold process_item, try_body.
  destruct (extract (title it)) as [[artist track]|e].
  2:{ split; simpl; [|assumption]. rewrite count_found_app. simpl. lia. }
  destruct (for_queries search _ (vars st)) as [lc err] eqn:E.
  assert (Hb' : bound_together lc) by (eapply for_queries_bound; eauto).
  destruct err as [e|].
  { split; simpl; [|assumption]. rewrite count_found_app. simpl. lia. }
  destruct (result_ lc) as [r|] eqn:Er.
  2:{ split; simpl; [|assumption]. rewrite count_found_app. simpl. lia. }
  destruct (items_of r) as [items|e].
  2:{ split; simpl; [|assumption]. rewrite count_found_app. simpl. lia. }
  destruct (query lc) as [q|] eqn:Eq.
  2:{ exfalso. apply Hb'; [rewrite Er; discriminate|assumption]. }
  destruct (option_map uri (hd_error items)) as [u|]; simpl;
    (split; simpl; [|assumption]); rewrite count_found_app; simpl; lia.
Qed.

Lemma fold_in_step (video_data : list video) :
  forall st, in_step st -> in_step (fold_left (process_item extract search) video_data st).
Proof.
  induction video_data as [|it vd IH]; simpl; intros st H; [assumption|].
  apply IH, process_item_in_step, H.
Qed.

(** Whenever the loop returns, what it returns satisfies the three
    invariants: the counter is the number of outcomes with a URI, and the
    outcomes are those of the items, one each, in their order. *)
Lemma match_loop_invariants (video_data : list video) os n :
  match_loop extract search video_data = Ok (os, n) ->
  n = count_found os /\ List.length os = List.length video_data /\ map item os = video_data.
Proof.
  unfold match_loop. destruct (Nat.eqb _ 0); [discriminate|].
  intros [= <- <-].
  destruct (fold_process_items video_data initial) as (os & Hos & Hm).
  simpl in Hos.
  assert (Hi : in_step initial) by (split; [reflexivity|intros H; now elim H]).
  destruct (fold_in_step video_data Hi) as [Hc _].
  split; [assumption|]. rewrite Hos. split; [|assumption].
  now rewrite <- Hm, length_map.
Qed.

(** It returns on every batch but the empty one. *)
Lemma match_loop_returns (video_data : list video) :
  video_data <> [] -> exists os n, match_loop extract search video_data = Ok (os, n).
Proof.
  intros H. unfold match_loop. destruct video_data; [contradiction|].
  simpl. eauto.
Qed.

End MatchingFacts.

(** *** The loop as the program runs it *)

(** Every item ends in the [except] clause before any search is made. *)
Lemma try_body_raises (search : client) (it : video) (st : state) :
  try_body extract_artist_track search it st = (st, Some name_error).
Proof. unfold try_body. now rewrite extract_unbound. Qed.

Lemma fold_all_errors (search : client) (video_data : list video) :
  forall st,
    fold_left (process_item extract_artist_track search) video_data st
    = {| results := results st
                    ++ map (fun it => error_outcome it name_error (query (vars st))) video_data;
         matched := matched st;
         unmatched_titles := unmatched_titles st ++ map title video_data;
         vars := vars st |}.
Proof.
  induction video_data as [|it vd IH]; intros st; simpl.
  - rewrite !app_nil_r. now destruct st.
  - rewrite IH. unfold process_item. rewrite try_body_raises. simpl.
    now rewrite <- !app_assoc.
Qed.

Lemma match_to_spotify_all_errors (search : client) (video_data : list video) :
  video_data <> [] ->
  match_to_spotify video_data search
  = Ok (map (fun it => error_outcome it name_error None) video_data, 0).
Proof.
  intros H. unfold match_to_spotify, match_loop. rewrite fold_all_errors.
  destruct video_data; [contradiction|]. reflexivity.
Qed.

(** C5.  The claim describes the inner loop, and the inner loop does that
    (see [for_queries_first_hit]); but no item reaches it.  Whatever the
    search function answers, the one item of the batch is recorded as an
    error with no query, and nothing is matched. *)
Theorem no_candidate_is_tried (it : video) (search : client) :
  match_to_spotify [it] search = Ok ([error_outcome it name_error None], 0)
  /\ spotify_uri (error_outcome it name_error None) = None
  /\ query_used (error_outcome it name_error None) = py "N/A".
Proof.
  split; [|split; reflexivity].
  now rewrite match_to_spotify_all_errors.
Qed.

(** *** Items that fail *)

Module Entries.

Lemma candidates_nonempty (artist : option pystr) (track : pystr) :
  py_iter (build_spotify_query artist track) <> [].
Proof.
  unfold build_spotify_query. destruct artist as [a|]; [|discriminate].
  destruct (negb _ || _); discriminate.
Qed.

(** The loop over the candidates stops at the first call that fails, with
    that candidate in [query]. *)
Lemma for_queries_fails (search : client) (tried : list pystr) :
  forall q rest e lc,
    Forall (no_hit search) tried -> call_fails search q e ->
    exists lc',
      for_queries search (tried ++ q :: rest) lc = (lc', Some e) /\ query lc' = Some q.
Proof.
  induction tried as [|p tried IH]; intros q rest e lc Ht Hq.
  - cbn [app for_queries].
    destruct Hq as [Hq|(r & Hq & Hi)]; rewrite Hq; [|rewrite Hi];
      eexists; split; reflexivity.
  - inversion Ht as [|? ? Hp Ht']; subst. cbn [app for_queries].
    unfold no_hit in Hp. rewrite Hp. cbn [items_of]. now apply IH.
Qed.

(** An exception of the loop over the candidates is that of a call that
    failed, after candidates without a hit. *)
Lemma for_queries_error_at (search : client) (queries : list pystr) :
  forall lc lc' e,
    for_queries search queries lc = (lc', Some e) ->
    exists tried q rest,
      queries = tried ++ q :: rest
      /\ Forall (no_hit search) tried
      /\ call_fails search q e
      /\ query lc' = Some q.
Proof.
  induction queries as [|p queries IH]; cbn [for_queries]; intros lc lc' e H;
    [discriminate|].
  destruct (search p) as [r|e'] eqn:Es.
  - destruct (items_of r) as [[|best more]|e'] eqn:Ei.
    + destruct (IH _ _ _ H) as (tried & q & rest & -> & Ht & Hq & Hl).
      exists (p :: tried), q, rest. split; [reflexivity|].
      split; [|split; assumption].
      constructor; [|exact Ht]. unfold no_hit.
      destruct r as [items|]; [|discriminate]. simpl in Ei. now injection Ei as ->.
    + discriminate.
    + injection H as <- <-. exists [], p, queries.
      split; [reflexivity|]. split; [constructor|]. split; [|reflexivity].
      right. now exists r.
  - injection H as <- <-. exists [], p, queries.
    split; [reflexivity|]. split; [constructor|]. split; [now left|reflexivity].
Qed.

(** A loop over candidates that ends without an exception ends at a
    candidate that the client answered, with a hit or as the last one, the
    candidates before it having no hit. *)
Lemma for_queries_answered (search : client) (queries : list pystr) :
  forall lc lc',
    for_queries search queries lc = (lc', None) -> queries <> [] ->
    exists tried q rest r items,
      queries = tried ++ q :: rest
      /\ Forall (no_hit search) tried
      /\ search q = Ok r
      /\ items_of r = Ok items
      /\ (items = [] -> rest = [])
      /\ query lc' = Some q
      /\ result_ lc' = Some r.
Proof.
  induction queries as [|p queries IH]; intros lc lc' H Hne; [contradiction|].
  cbn [for_queries] in H. destruct (search p) as [r|e] eqn:Es; [|discriminate].
  destruct (items_of r) as [[|best more]|e] eqn:Ei; [| |discriminate].
  - destruct queries as [|p' queries].
    + cbn [for_queries] in H. injection H as <-.
      exists [], p, [], r, []. repeat split; auto.
    + destruct (IH _ _ H) as (tried & q & rest & r' & items & E & Ht & Hs & Hi & He & Hq & Hr);
        [discriminate|].
      exists (p :: tried), q, rest, r', items. rewrite E.
      split; [reflexivity|]. split; [|repeat split; assumption].
      constructor; [|exact Ht]. unfold no_hit.
      destruct r as [its|]; [|discriminate]. simpl in Ei. now injection Ei as ->.
  - injection H as <-. exists [], p, queries, r, (best :: more).
    repeat split; auto. discriminate.
Qed.


(** The error entry that the [except] clause writes. *)
Lemma except_clause_entry (it : video) (e : exn) (st : state) :
  exists o,
    results (except_clause it e st) = results st ++ [o]
    /\ error_entry o it e (match query (vars st) with
                           | Some q => q
                           | None => py "N/A"
                           end).
Proof. eexists. split; [reflexivity|]. repeat split. Qed.

Section Items.

Variable extract : pystr -> result (option pystr * option pystr).
Variable search : client.


Lemma try_body_call_fails (st : state) (it : video) artist track tried q rest e :
  extract (title it) = Ok (artist, Some track) ->
  py_iter (build_spotify_query artist track) = tried ++ q :: rest ->
  Forall (no_hit search) tried ->
  call_fails search q e ->
  exists lc',
    query lc' = Some q
    /\ try_body extract search it st = (with_vars st lc', Some e).
Proof.
  intros He Hq Ht Hf. unfold try_body. rewrite He. cbn [fmt]. rewrite Hq.
  destruct (for_queries_fails rest (vars st) Ht Hf) as (lc' & E & Hl).
  rewrite E. exists lc'. split; [exact Hl|reflexivity].
Qed.

(** Where an exception of the [try] body comes from, and what it leaves. *)
Lemma try_body_raises_from (st st' : state) (it : video) (e : exn) :
  returns_track extract ->
  try_body extract search it st = (st', Some e) ->
  (extract (title it) = Raise e /\ st' = st)
  \/ exists artist track tried q rest lc',
      extract (title it) = Ok (artist, Some track)
      /\ py_iter (build_spotify_query artist track) = tried ++ q :: rest
      /\ Forall (no_hit search) tried
      /\ call_fails search q e
      /\ query lc' = Some q
      /\ st' = with_vars st lc'.
Proof.
  intros Hrt. unfold try_body.
  destruct (extract (title it)) as [[artist track]|e0] eqn:Ee;
    [|intros [= <- <-]; now left].
  destruct track as [track|]; [|now elim (Hrt _ _ _ Ee)]. cbn [fmt].
  destruct (for_queries search _ (vars st)) as [lc [e0|]] eqn:E.
  - intros [= <- <-]. right.
    destruct (for_queries_error_at _ _ _ E) as (tried & q & rest & Hq & Ht & Hf & Hl).
    exists artist, track, tried, q, rest, lc. repeat split; assumption.
  - destruct (for_queries_answered _ _ E (@candidates_nonempty artist track))
      as (tried & q & rest & r & items & _ & _ & _ & Hi & _ & Hq & Hr).
    rewrite Hr, Hi, Hq. destruct (option_map uri (hd_error items)); discriminate.
Qed.




End Items.

End Entries.




(** What the error entry reads: the warning sign and, in parentheses, the
    message of the exception. *)
Example error_entry_text :
  match_status (error_outcome first_video name_error None)
  = warning_sign ++ py " (name 'handle_special_casese' is not defined)".
Proof. reflexivity. Qed.

(** The fifth scenario of the specification holds of the loop once the
    extractor's call is resolved to the detector: the first two candidates
    find nothing, the third has a hit, and the item is recorded as matched
    by the third. *)
Example third_candidate_matches :
  py_iter (build_spotify_query (Some (py "Artist")) (py "Song"))
  = [py "artist:Artist track:Song"; py "Artist Song"; py "Song"]
  /\ match_loop (extract_with handle_special_cases) third_candidate_only [first_video]
     = Ok ([ {| item := first_video;
                spotify_uri := Some (py "spotify:track:4uLU6hMCjMI75M1A2tKUQC");
                spotify_url := Some (py "https://open.spotify.com/track/4uLU6hMCjMI75M1A2tKUQC");
                match_status := check_mark;
                query_used := py "Song" |} ], 1).
Proof. split; vm_compute; reflexivity. Qed.

(** C7.  On a batch with at least one item the three invariants hold (see
    [match_loop_invariants]); on the empty batch the summary line divides by
    zero and nothing is returned. *)
Theorem empty_batch_raises (search : client) :
  match_to_spotify [] search = Raise ZeroDivisionError
  /\ forall outcomes n, match_to_spotify [] search <> Ok (outcomes, n).
Proof.
  assert (E : match_to_spotify [] search = Raise ZeroDivisionError) by reflexivity.
  split; [exact E|]. intros outcomes n. rewrite E. discriminate.
Qed.

Lemma match_to_spotify_invariants (video_data : list video) (search : client) :
  video_data <> [] ->
  exists os n,
    match_to_spotify video_data search = Ok (os, n)
    /\ n = count_found os
    /\ List.length os = List.length video_data
    /\ map item os = video_data.
Proof.
  intros H.
  destruct (match_loop_returns extract_artist_track search H) as (os & n & E).
  exists os, n. split; [exact E|]. eapply match_loop_invariants, E.
Qed.


(** ** URI and URL *)

(** C9, the claim as stated fails: an id that holds a slash (or a colon) does
    not come back, in either direction. *)
Lemma id_with_slash_not_restored :
  uri_of_url (spotify_url_of (py "spotify:track:a/b")) = Some (py "spotify:track:b")
  /\ uri_of_url (spotify_url_of (py "spotify:track:a/b")) <> Some (py "spotify:track:a/b")
  /\ option_map spotify_url_of (uri_of_url (py "https://open.spotify.com/track/a:b"))
     <> Some (py "https://open.spotify.com/track/a:b").
Proof. repeat split; vm_compute; congruence. Qed.

Lemma spotify_url_of_id (id : pystr) :
  Py.mem colon id = false ->
  spotify_url_of (track_uri_prefix ++ id) = track_url_prefix ++ id.
Proof.
  intros H. unfold spotify_url_of. f_equal.
  change (track_uri_prefix ++ id) with (py "spotify:track" ++ colon :: id).
  now apply PyFacts.split_last_without.
Qed.

Lemma uri_of_url_id (id : pystr) :
  Py.mem slash id = false ->
  uri_of_url (track_url_prefix ++ id) = Some (track_uri_prefix ++ id).
Proof.
  intros H. unfold uri_of_url. rewrite PyFacts.startswith_app. do 2 f_equal.
  change (track_url_prefix ++ id) with (py "https://open.spotify.com/track" ++ slash :: id).
  now apply PyFacts.split_last_without.
Qed.

(** C9, amended.  For an id that holds neither a colon nor a slash, the URL
    written by the matching loop for [spotify:track:<id>] is
    [https://open.spotify.com/track/<id>], the reader turns that URL back
    into the same URI, and the other way round. *)
Theorem uri_url_roundtrip (id : pystr) :
  Py.mem colon id = false ->
  Py.mem slash id = false ->
  spotify_url_of (track_uri_prefix ++ id) = track_url_prefix ++ id
  /\ (forall it q,
        spotify_url (found_outcome it (Some (track_uri_prefix ++ id)) q)
        = Some (track_url_prefix ++ id))
  /\ read_spotify_tracks_from_csv [spotify_url_of (track_uri_prefix ++ id)]
     = [track_uri_prefix ++ id]
  /\ map spotify_url_of (read_spotify_tracks_from_csv [track_url_prefix ++ id])
     = [track_url_prefix ++ id].
Proof.
  intros Hc Hs. split; [now apply spotify_url_of_id|]. split; [|split].
  - intros it q. unfold found_outcome. cbn [spotify_url truthy track_uri_prefix py Py.lit app].
    cbn [option_map]. f_equal. now apply spotify_url_of_id.
  - rewrite spotify_url_of_id by assumption.
    cbn [read_spotify_tracks_from_csv]. now rewrite uri_of_url_id.
  - cbn [read_spotify_tracks_from_csv]. rewrite uri_of_url_id by assumption.
    cbn [map]. now rewrite spotify_url_of_id.
Qed.

Lemma uri_url_roundtrip_witness :
  Py.mem colon (py "4uLU6hMCjMI75M1A2tKUQC") = false
  /\ Py.mem slash (py "4uLU6hMCjMI75M1A2tKUQC") = false
  /\ read_spotify_tracks_from_csv [spotify_url_of (py "spotify:track:4uLU6hMCjMI75M1A2tKUQC")]
     = [py "spotify:track:4uLU6hMCjMI75M1A2tKUQC"].
Proof.
  split; [reflexivity|]. split; [reflexivity|].
  exact (proj1 (proj2 (proj2 (uri_url_roundtrip (py "4uLU6hMCjMI75M1A2tKUQC")
                                 eq_refl eq_refl)))).
Defined.


(** * Further properties *)

(** ** Fetching the playlist *)

Module Fetch.

Lemma numbered_nil : numbered [].
Proof. reflexivity. Qed.

Lemma add_item_numbered (videos : list video) (it : playlist_item) :
  numbered videos -> numbered (add_item videos it).
Proof.
  unfold numbered, add_item, video_of_item. intros H.
  destruct (item_snippet it) as [sn|]; [|exact H].
  destruct (snippet_title sn); [|exact H].
  destruct (resourceId sn) as [r|]; [|exact H].
  destruct (videoId r); [|exact H].
  rewrite map_app, length_app, H. cbn [map position List.length].
  rewrite Nat.add_1_r, seq_S. reflexivity.
Qed.

Lemma add_item_short_url (videos : list video) (it : playlist_item) :
  Forall short_url videos -> Forall short_url (add_item videos it).
Proof.
  unfold add_item, video_of_item. intros H.
  destruct (item_snippet it) as [sn|]; [|exact H].
  destruct (snippet_title sn); [|exact H].
  destruct (resourceId sn) as [r|]; [|exact H].
  destruct (videoId r); [|exact H].
  apply Forall_app. split; [exact H|]. constructor; [reflexivity|constructor].
Qed.

Lemma fold_add_item_keeps (P : list video -> Prop) :
  (forall videos it, P videos -> P (add_item videos it)) ->
  forall its videos, P videos -> P (fold_left add_item its videos).
Proof.
  intros Hstep. induction its as [|it its IH]; simpl; intros videos H; [exact H|].
  apply IH, Hstep, H.
Qed.

Lemma fetch_pages_keeps (P : list video -> Prop) (api : youtube_api) :
  (forall videos it, P videos -> P (add_item videos it)) ->
  forall fuel token videos result,
    P videos -> fetch_pages api fuel token videos = Some result -> P result.
Proof.
  intros Hstep. induction fuel as [|fuel IH]; simpl; intros token videos result H;
    [discriminate|].
  destruct (api token) as [p|e]; [|now intros [= <-]].
  destruct (page_items p) as [its|]; [|now intros [= <-]].
  pose proof (fold_add_item_keeps P Hstep its videos H) as H'.
  destruct (nextPageToken p) as [[|c next]|]; try (now intros [= <-]).
  apply IH, H'.
Qed.

(** The loop ends as soon as the pages served end, with the items of all of
    them added in order. *)
Lemma fetch_pages_served (api : youtube_api) token pages :
  served api token pages ->
  forall fuel videos,
    List.length pages < fuel ->
    fetch_pages api fuel token videos
    = Some (fold_left add_item (List.concat pages) videos).
Proof.
  induction 1 as [token e He|token p Hp Hi|token p its Hp Hi Hn
                  |token p its c next rest Hp Hi Hn Hs IH];
    intros fuel videos Hf; (destruct fuel as [|fuel]; [simpl in Hf; lia|]); simpl.
  - now rewrite He.
  - now rewrite Hp, Hi.
  - rewrite Hp, Hi, app_nil_r.
    destruct (nextPageToken p) as [[|c next]|]; try reflexivity. discriminate.
  - rewrite Hp, Hi, Hn, fold_left_app. apply IH. simpl in Hf. lia.
Qed.

(** A malformed item leaves the list as it is. *)
Lemma add_item_malformed (videos : list video) (it : playlist_item) :
  well_formed it = false -> add_item videos it = videos.
Proof.
  unfold well_formed, add_item, video_of_item.
  destruct (item_snippet it) as [sn|]; [|reflexivity].
  destruct (snippet_title sn); [|reflexivity].
  destruct (resourceId sn) as [r|]; [|reflexivity].
  destruct (videoId r); [discriminate|reflexivity].
Qed.

Lemma add_item_well_formed (videos : list video) (it : playlist_item) :
  well_formed it = true -> List.length (add_item videos it) = S (List.length videos).
Proof.
  unfold well_formed, add_item, video_of_item.
  destruct (item_snippet it) as [sn|]; [|discriminate].
  destruct (snippet_title sn); [|discriminate].
  destruct (resourceId sn) as [r|]; [|discriminate].
  destruct (videoId r); [|discriminate].
  intros _. rewrite length_app. simpl. lia.
Qed.

Lemma fold_add_item_filter (its : list playlist_item) :
  forall videos,
    fold_left add_item its videos = fold_left add_item (filter well_formed its) videos
    /\ List.length (fold_left add_item its videos)
       = List.length videos + List.length (filter well_formed its).
Proof.
  induction its as [|it its IH]; simpl; intros videos; [split; [reflexivity|lia]|].
  destruct (well_formed it) eqn:E; simpl.
  - destruct (IH (add_item videos it)) as [H1 H2]. split; [exact H1|].
    rewrite H2, add_item_well_formed by exact E. lia.
  - rewrite add_item_malformed by exact E. apply IH.
Qed.

End Fetch.

(** X1.  When the API serves finitely many pages, that is until a request
    fails, a page has no items or a page has no next token, the fetch
    returns within one request more than the pages served, with the videos
    of all the items served, in order. *)
Theorem fetch_returns_served (api : youtube_api) (pages : list (list playlist_item))
        (fuel : nat) :
  served api None pages ->
  List.length pages < fuel ->
  get_youtube_playlist_items api fuel
  = Some (fold_left add_item (List.concat pages) []).
Proof.
  intros Hs Hf. unfold get_youtube_playlist_items.
  now apply Fetch.fetch_pages_served.
Qed.

Lemma two_pages_served :
  served two_pages None
         [[sample_item "Artist - Song" "a1"; broken_item]; [sample_item "Other - Tune" "b2"]].
Proof.
  eapply served_next; [reflexivity|reflexivity|reflexivity|].
  eapply served_last; reflexivity.
Defined.

Lemma fetch_returns_served_witness :
  served two_pages None
         [[sample_item "Artist - Song" "a1"; broken_item]; [sample_item "Other - Tune" "b2"]]
  /\ 2 < 3
  /\ get_youtube_playlist_items two_pages 3
     = Some [ {| title := py "Artist - Song"; video_id := py "a1";
                 url := py "https://youtu.be/a1"; channel := py "Unknown Channel";
                 position := 1 |};
              {| title := py "Other - Tune"; video_id := py "b2";
                 url := py "https://youtu.be/b2"; channel := py "Unknown Channel";
                 position := 2 |} ].
Proof.
  split; [exact two_pages_served|]. split; [lia|].
  exact (fetch_returns_served (fuel := 3) two_pages_served (Nat.lt_succ_diag_r 2)).
Defined.

(** X2.  Whatever the API answers, the videos returned are numbered 1, 2, 3
    and so on without a gap, also when malformed items were skipped or a
    request failed half way, and each has the short URL of its own id. *)
Theorem fetched_videos_numbered (api : youtube_api) (fuel : nat) (videos : list video) :
  get_youtube_playlist_items api fuel = Some videos ->
  map position videos = seq 1 (List.length videos)
  /\ Forall (fun v => url v = py "https://youtu.be/" ++ video_id v) videos.
Proof.
  intros H. split.
  - apply (Fetch.fetch_pages_keeps numbered api Fetch.add_item_numbered
             fuel None [] Fetch.numbered_nil H).
  - apply (Fetch.fetch_pages_keeps (Forall short_url) api Fetch.add_item_short_url
             fuel None [] (Forall_nil _) H).
Qed.

Lemma fetched_videos_numbered_witness :
  get_youtube_playlist_items two_pages 3
  = Some [ {| title := py "Artist - Song"; video_id := py "a1";
              url := py "https://youtu.be/a1"; channel := py "Unknown Channel";
              position := 1 |};
           {| title := py "Other - Tune"; video_id := py "b2";
              url := py "https://youtu.be/b2"; channel := py "Unknown Channel";
              position := 2 |} ]
  /\ map position
         [ {| title := py "Artist - Song"; video_id := py "a1";
              url := py "https://youtu.be/a1"; channel := py "Unknown Channel";
              position := 1 |};
           {| title := py "Other - Tune"; video_id := py "b2";
              url := py "https://youtu.be/b2"; channel := py "Unknown Channel";
              position := 2 |} ]
     = [1; 2].
Proof.
  split; [reflexivity|].
  exact (proj1 (fetched_videos_numbered two_pages 3 eq_refl)).
Defined.

(** X3.  An item is turned into a video exactly when it has its [snippet],
    the [title] and the [resourceId] of that, and the [videoId] of the
    latter; a missing [videoOwnerChannelTitle] does not count, the channel
    then reads [Unknown Channel].  An item that lacks one of the four keys
    leaves the list as it is, so the videos of a page are those of its
    well-formed items alone, one for each. *)
Theorem malformed_items_skipped (its : list playlist_item) :
  (forall it,
      well_formed it = true <-> exists t v ch, it = full_item t v ch)
  /\ (forall videos it, well_formed it = false -> add_item videos it = videos)
  /\ (forall videos t v ch,
        add_item videos (full_item t v ch)
        = videos ++ [ {| title := t;
                         video_id := v;
                         url := py "https://youtu.be/" ++ v;
                         channel := match ch with
                                    | Some c => c
                                    | None => py "Unknown Channel"
                                    end;
                         position := List.length videos + 1 |} ])
  /\ fold_left add_item its [] = fold_left add_item (filter well_formed its) []
  /\ List.length (fold_left add_item its []) = List.length (filter well_formed its).
Proof.
  split; [|split; [|split]].
  - intros [[[[t|] [[[v|]]|] ch]|]]; cbn; split;
      try discriminate; try (intros (t' & v' & ch' & H); discriminate H).
    + intros _. now exists t, v, ch.
    + reflexivity.
  - intros videos it H. now apply Fetch.add_item_malformed.
  - intros videos t v [c|]; reflexivity.
  - destruct (Fetch.fold_add_item_filter its []) as [H1 H2]. split; [exact H1|].
    rewrite H2. reflexivity.
Qed.

Lemma malformed_items_skipped_witness :
  filter well_formed mixed_items
  = [full_item (py "Artist - Song") (py "a1") None;
     full_item (py "Other - Tune") (py "b2") (Some (py "Other"))]
  /\ fold_left add_item mixed_items []
     = [ {| title := py "Artist - Song"; video_id := py "a1";
            url := py "https://youtu.be/a1"; channel := py "Unknown Channel";
            position := 1 |};
         {| title := py "Other - Tune"; video_id := py "b2";
            url := py "https://youtu.be/b2"; channel := py "Other";
            position := 2 |} ].
Proof.
  split; [reflexivity|].
  destruct (malformed_items_skipped mixed_items) as (_ & _ & _ & H & _).
  rewrite H. reflexivity.
Defined.

(** X4.  When the first request fails the fetch returns the empty list, no
    exception; the matching step run on that list, as in steps 1 and 4 of
    the script, then ends in [ZeroDivisionError]. *)
Theorem failed_fetch_breaks_matching (api : youtube_api) (e : exn) (fuel : nat)
        (sp_client : client) :
  api None = Raise e ->
  get_youtube_playlist_items api (S fuel) = Some []
  /\ option_map (fun youtube_data => match_to_spotify youtube_data sp_client)
                (get_youtube_playlist_items api (S fuel))
     = Some (Raise ZeroDivisionError).
Proof.
  intros H. unfold get_youtube_playlist_items. simpl. rewrite H. split; reflexivity.
Qed.

Lemma failed_fetch_breaks_matching_witness :
  (fun _ : option pystr => @Raise playlist_page (ClientError (py "quota"))) None
  = Raise (ClientError (py "quota"))
  /\ option_map (fun youtube_data => match_to_spotify youtube_data third_candidate_only)
                (get_youtube_playlist_items
                   (fun _ => Raise (ClientError (py "quota"))) 1)
     = Some (Raise ZeroDivisionError).
Proof.
  split; [reflexivity|].
  exact (proj2 (failed_fetch_breaks_matching
                  (fun _ => Raise (ClientError (py "quota"))) 0
                  third_candidate_only eq_refl)).
Defined.

(** ** The result files *)

Module Files.





End Files.




(** An id with a carriage return is not restored: the line feed that the
    reader puts in its place ends up in the URI. *)
Example carriage_return_not_restored :
  read_spotify_tracks_from_csv
    (url_column
       (export_matched_to_csv
          [found_outcome first_video (Some (py "spotify:track:a" ++ [13%N] ++ py "b"))
                         (py "Song")]))
  = [py "spotify:track:a" ++ [10%N] ++ py "b"].
Proof. vm_compute. reflexivity. Qed.





(** ** The matching loop, for any extractor *)

Module Loop.

Lemma queries_nonempty (artist : option pystr) (track : pystr) :
  py_iter (build_spotify_query artist track) <> [].
Proof.
  unfold build_spotify_query. destruct artist as [a|]; [|discriminate].
  destruct (negb _ || _); discriminate.
Qed.

(** A loop over candidates that ends without an exception leaves the
    candidate last searched and the client's answer to it. *)
Lemma for_queries_ends (search : client) (queries : list pystr) :
  forall lc lc',
    for_queries search queries lc = (lc', None) ->
    queries = []
    \/ exists q r items,
        query lc' = Some q /\ result_ lc' = Some r
        /\ search q = Ok r /\ items_of r = Ok items.
Proof.
  induction queries as [|q rest IH]; simpl; intros lc lc' H; [now left|right].
  destruct (search q) as [r|e] eqn:Es; [|discriminate].
  destruct (items_of r) as [[|best more]|e] eqn:Ei; [| |discriminate].
  - destruct (IH _ _ H) as [->|Hx]; [|exact Hx].
    simpl in H. injection H as <-. exists q, r, []. now repeat split.
  - injection H as <-. exists q, r, (best :: more). now repeat split.
Qed.

(** An exception in the loop over candidates is one the client raised, or
    the missing key of an answer it gave; the candidate is left in [query]. *)
Lemma for_queries_error (search : client) (queries : list pystr) :
  forall lc lc' e,
    for_queries search queries lc = (lc', Some e) ->
    exists q, query lc' = Some q
              /\ (search q = Raise e \/ exists r, search q = Ok r /\ items_of r = Raise e).
Proof.
  induction queries as [|q rest IH]; simpl; intros lc lc' e H; [discriminate|].
  destruct (search q) as [r|e'] eqn:Es.
  - destruct (items_of r) as [[|best more]|e'] eqn:Ei.
    + apply (IH _ _ _ H).
    + discriminate.
    + injection H as <- <-. exists q. split; [reflexivity|]. right. now exists r.
  - injection H as <- <-. exists q. split; [reflexivity|now left].
Qed.

Section Items.

Variable extract : pystr -> result (option pystr * option pystr).
Variable search : client.

Hypothesis extract_returns_track : returns_track extract.

(** The entry that an item adds: built by the [try] body from the answer to
    one of the item's own candidates, or an error entry. *)
Lemma process_item_entry (st : state) (it : video) :
  exists o,
    results (process_item extract search st it) = results st ++ [o]
    /\ item o = it
    /\ (answered extract search o \/ exists e q, error_entry o (item o) e q).
Proof.
  unfold process_item.
  destruct (try_body extract search it st) as [st' [e|]] eqn:Hb.
  - destruct (Entries.except_clause_entry it e st') as (o & Ho & He).
    assert (Hr : results st' = results st).
    { destruct (@Entries.try_body_raises_from extract search st st' it e
                  extract_returns_track Hb)
        as [[_ ->]|(? & ? & ? & ? & ? & lc' & _ & _ & _ & _ & _ & ->)]; reflexivity. }
    exists o. rewrite Ho, Hr. split; [reflexivity|].
    pose proof He as (Hi & _). split; [exact Hi|]. right.
    rewrite Hi. eauto.
  - unfold try_body in Hb.
    destruct (extract (title it)) as [[artist track]|e0] eqn:Ee; [|discriminate].
    destruct track as [track|];
      [|exfalso; eapply extract_returns_track; [exact Ee|reflexivity]].
    cbn [fmt] in Hb.
    destruct (for_queries search _ (vars st)) as [lc [e0|]] eqn:E; [discriminate|].
    destruct (Entries.for_queries_answered _ _ E (@Entries.candidates_nonempty artist track))
      as (tried & q & rest & r & items & Hq & Ht & Hs & Hi & He & Hl & Hr).
    rewrite Hr, Hi, Hl in Hb.
    exists (found_outcome it (option_map uri (hd_error items)) q).
    split; [|split; [reflexivity|]].
    + destruct (option_map uri (hd_error items)); injection Hb as <-; reflexivity.
    + left. exists artist, track, tried, q, rest, r, items.
      repeat split; assumption || reflexivity.
Qed.

Lemma fold_entries (video_data : list video) :
  forall st,
    Forall (fun o => answered extract search o \/ exists e q, error_entry o (item o) e q)
           (results st) ->
    Forall (fun o => answered extract search o \/ exists e q, error_entry o (item o) e q)
           (results (fold_left (process_item extract search) video_data st)).
Proof.
  induction video_data as [|it vd IH]; simpl; intros st H; [exact H|].
  apply IH. destruct (process_item_entry st it) as (o & -> & _ & Ho).
  apply Forall_app. split; [exact H|]. constructor; [exact Ho|constructor].
Qed.

End Items.

End Loop.

(** X8.  For an extractor that returns a track whenever it returns, the
    outcomes are those of the items, one each and in order, and every one
    that is no error entry was built from its own item: the extractor
    returned for that item, the candidates before the query of the entry are
    candidates of that item and had no hit, the client answered the query
    with a hit or as the last candidate, and the URI is that of the first
    hit.  So the [query] and [result] that survive from the items before
    never reach an entry built by the [try] body. *)
Theorem outcomes_settled (extract : pystr -> result (option pystr * option pystr))
        (search : client) (video_data : list video) (os : list outcome) (n : nat) :
  returns_track extract ->
  match_loop extract search video_data = Ok (os, n) ->
  map item os = video_data
  /\ Forall (fun o => answered extract search o \/ exists e q, error_entry o (item o) e q)
            os.
Proof.
  intros Hrt H. destruct (match_loop_invariants _ _ _ H) as (_ & _ & Hitems).
  split; [exact Hitems|].
  unfold match_loop in H. destruct (Nat.eqb _ 0); [discriminate|].
  injection H as <- _. apply (Loop.fold_entries Hrt). constructor.
Qed.

Lemma outcomes_settled_witness :
  returns_track (extract_with handle_special_cases)
  /\ Forall (fun o => answered (extract_with handle_special_cases) third_candidate_only o
                      \/ exists e q, error_entry o (item o) e q)
       [found_outcome first_video (Some (py "spotify:track:4uLU6hMCjMI75M1A2tKUQC"))
                      (py "Song");
        found_outcome second_video None (py "Tune")].
Proof.
  split; [exact extract_with_track_present|].
  refine (proj2 (@outcomes_settled (extract_with handle_special_cases) third_candidate_only
                   [first_video; second_video] _ 1 extract_with_track_present _)).
  vm_compute. reflexivity.
Defined.

(** An entry that carries the query and the hit of another item is none that
    the [try] body builds. *)
Example stale_entry_not_answered :
  ~ answered (extract_with handle_special_cases) third_candidate_only
      (found_outcome second_video (Some (py "spotify:track:4uLU6hMCjMI75M1A2tKUQC"))
                     (py "Song")).
Proof.
  intros (artist & track & tried & q & rest & r & items
          & He & Hq & Ht & Hs & Hi & Hl & Hqu & Hu & _).
  cbn [found_outcome item query_used spotify_uri] in He, Hqu, Hu. subst q.
  assert (E : extract_with handle_special_cases (title second_video)
              = Ok (Some (py "Other"), Some (py "Tune"))) by (vm_compute; reflexivity).
  assert (Hin : In (py "Song") (py_iter (build_spotify_query artist track)))
    by (rewrite Hq; apply in_elt).
  rewrite E in He. injection He as <- <-.
  vm_compute in Hin. intuition congruence.
Qed.

(** X9.  The [try] body raises nothing of its own: for an extractor that
    returns a track whenever it returns, an exception that reaches the
    [except] clause was raised by the extractor or by the client's search, or
    is the missing key of an answer the client gave.  In particular neither
    [query] nor [result] is read before it is bound, since the builder never
    returns an empty sequence of candidates. *)
Theorem exceptions_come_from_outside
        (extract : pystr -> result (option pystr * option pystr))
        (search : client) (it : video) (st st' : state) (e : exn) :
  returns_track extract ->
  try_body extract search it st = (st', Some e) ->
  extract (title it) = Raise e
  \/ exists q, search q = Raise e \/ exists r, search q = Ok r /\ items_of r = Raise e.
Proof.
  intros _. unfold try_body.
  destruct (extract (title it)) as [[artist track]|e0]; [|intros [= _ <-]; now left].
  destruct (for_queries search _ (vars st)) as [lc [e0|]] eqn:E.
  { intros [= _ <-]. right.
    destruct (Loop.for_queries_error _ _ _ E) as (q & _ & Hq). now exists q. }
  destruct (Loop.for_queries_ends _ _ _ E) as [Hq|(q & r & items & Hq & Hr & Hs & Hi)].
  { now apply Loop.queries_nonempty in Hq. }
  rewrite Hr, Hi, Hq. destruct (option_map uri (hd_error items)); discriminate.
Qed.

Lemma exceptions_come_from_outside_witness :
  returns_track (extract_with handle_special_cases)
  /\ try_body (extract_with handle_special_cases) fails_on_plain first_video initial
     = (with_vars initial {| query := Some (py "Artist Song");
                             result_ := Some (Tracks []) |},
        Some (ClientError (py "timeout")))
  /\ (extract_with handle_special_cases (title first_video)
      = Raise (ClientError (py "timeout"))
      \/ exists q,
          fails_on_plain q = Raise (ClientError (py "timeout"))
          \/ exists r, fails_on_plain q = Ok r
                       /\ items_of r = Raise (ClientError (py "timeout"))).
Proof.
  split; [exact extract_with_track_present|]. split; [vm_compute; reflexivity|].
  refine (@exceptions_come_from_outside (extract_with handle_special_cases)
            fails_on_plain first_video initial _ _ extract_with_track_present _).
  vm_compute. reflexivity.
Defined.

(** X10.  When the client raises at a candidate and the candidates before
    it had no hit, the item's entry is an error entry: it has no URI and no
    URL, its status is the warning sign with the text of the exception, and
    its query is that candidate, not the sentinel; the counter is unchanged
    and the loop goes on. *)
Theorem client_error_names_query
        (extract : pystr -> result (option pystr * option pystr))
        (search : client) (it : video) (st : state)
        (artist : option pystr) (track : pystr)
        (before after : list pystr) (q : pystr) (e : exn) :
  extract (title it) = Ok (artist, Some track) ->
  py_iter (build_spotify_query artist track) = before ++ q :: after ->
  Forall (fun p => search p = Ok (Tracks [])) before ->
  search q = Raise e ->
  (exists o,
      results (process_item extract search st it) = results st ++ [o]
      /\ item o = it
      /\ spotify_uri o = None
      /\ spotify_url o = None
      /\ match_status o = warning_sign ++ py " (" ++ exn_str e ++ py ")"
      /\ query_used o = q)
  /\ matched (process_item extract search st it) = matched st.
Proof.
  intros He Hq Hb Hs.
  destruct (@Entries.try_body_call_fails extract search st it artist track
              before q after e He Hq Hb (or_introl Hs)) as (lc' & Hl & Ht).
  unfold process_item. rewrite Ht. split; [|reflexivity].
  destruct (Entries.except_clause_entry it e (with_vars st lc'))
    as (o & Ho & Hi & Hu & Hurl & Hm & Hqu).
  cbn [with_vars vars] in Hqu. rewrite Hl in Hqu.
  exists o. repeat split; assumption.
Qed.

Lemma client_error_names_query_witness :
  exists o,
    results (process_item (extract_with handle_special_cases) fails_on_plain
                          initial first_video) = [o]
    /\ item o = first_video
    /\ spotify_uri o = None
    /\ spotify_url o = None
    /\ match_status o = warning_sign ++ py " (timeout)"
    /\ query_used o = py "Artist Song".
Proof.
  refine (proj1 (@client_error_names_query (extract_with handle_special_cases)
                   fails_on_plain first_video initial
                   (Some (py "Artist")) (py "Song")
                   [py "artist:Artist track:Song"] [py "Song"]
                   (py "Artist Song") (ClientError (py "timeout"))
                   _ _ _ _)).
  - vm_compute. reflexivity.
  - vm_compute. reflexivity.
  - repeat constructor.
  - reflexivity.
Defined.

(** ** Filling the playlist *)

Module Chunks.

Lemma firstn_add {A} (a b : nat) :
  forall l : list A, firstn (a + b) l = firstn a l ++ firstn b (skipn a l).
Proof.
  induction a as [|a IH]; intros l; [reflexivity|].
  destruct l as [|x l]; simpl; [now rewrite firstn_nil|]. now rewrite IH.
Qed.

Lemma firstn_seq_le (k : nat) :
  forall a m, k <= m -> firstn k (seq a m) = seq a k.
Proof.
  induction k as [|k IH]; intros a m H; [reflexivity|].
  destruct m as [|m]; [lia|]. simpl. rewrite IH by lia. reflexivity.
Qed.

Lemma slice_from {A} (i s : nat) (l : list A) : slice i (i + s) l = firstn s (skipn i l).
Proof. unfold slice. now rewrite Nat.add_comm, Nat.add_sub. Qed.

(** The first [m] chunks of size [s] make up the first [m * s] elements. *)
Lemma concat_slices {A} (s : nat) (l : list A) (m : nat) :
  List.concat (map (fun i => slice i (i + s) l) (map (fun k => k * s) (seq 0 m)))
  = firstn (m * s) l.
Proof.
  induction m as [|m IH]; [reflexivity|].
  rewrite seq_S, !map_app, concat_app, IH. cbn [map List.concat Nat.add].
  rewrite app_nil_r, slice_from.
  replace (S m * s) with (m * s + s) by (simpl; lia).
  now rewrite firstn_add.
Qed.

Lemma range_covers (n : nat) : n <= (n + chunk_size - 1) / chunk_size * chunk_size.
Proof.
  unfold chunk_size.
  pose proof (Nat.div_mod_eq (n + 100 - 1) 100) as H.
  pose proof (Nat.mod_upper_bound (n + 100 - 1) 100) as H'. lia.
Qed.

Lemma range_within (n k : nat) :
  k < (n + chunk_size - 1) / chunk_size -> k * chunk_size < n.
Proof.
  unfold chunk_size.
  pose proof (Nat.div_mod_eq (n + 100 - 1) 100) as H. lia.
Qed.

Lemma concat_chunks (track_uris : list pystr) : List.concat (chunks track_uris) = track_uris.
Proof.
  unfold chunks, range_step. rewrite concat_slices.
  apply firstn_all2, range_covers.
Qed.

Lemma chunks_sizes (track_uris : list pystr) :
  Forall (fun c => 1 <= List.length c <= chunk_size) (chunks track_uris).
Proof.
  unfold chunks, range_step. rewrite map_map. apply Forall_forall.
  intros c Hc. apply in_map_iff in Hc. destruct Hc as (k & <- & Hk).
  apply in_seq in Hk. rewrite slice_from, length_firstn, length_skipn.
  pose proof (@range_within (List.length track_uris) k) as H.
  unfold chunk_size in *. lia.
Qed.

Section Sending.

Variable add_items : pystr -> list pystr -> result unit.
Variable playlist_id : pystr.
Variable track_uris : list pystr.

Lemma send_chunks_ok (starts : list nat) :
  forall calls u,
    send_chunks add_items playlist_id track_uris starts = (calls, Ok u) ->
    calls = map (fun i => slice i (i + chunk_size) track_uris) starts.
Proof.
  induction starts as [|i rest IH]; cbn [send_chunks map]; intros calls u H.
  - now injection H as <-.
  - destruct (add_items playlist_id _); [|discriminate].
    destruct (send_chunks add_items playlist_id track_uris rest) as [calls' r].
    injection H as <- ->. f_equal. now apply (IH _ u).
Qed.

Lemma send_chunks_raise (starts : list nat) :
  forall calls e,
    send_chunks add_items playlist_id track_uris starts = (calls, Raise e) ->
    exists sent failed,
      calls = sent ++ [failed]
      /\ Forall (fun c => exists u, add_items playlist_id c = Ok u) sent
      /\ add_items playlist_id failed = Raise e
      /\ List.length sent < List.length starts
      /\ calls = map (fun i => slice i (i + chunk_size) track_uris)
                     (firstn (S (List.length sent)) starts).
Proof.
  induction starts as [|i rest IH]; cbn [send_chunks]; intros calls e H; [discriminate|].
  destruct (add_items playlist_id _) as [u|e'] eqn:E.
  - destruct (send_chunks add_items playlist_id track_uris rest) as [calls' r].
    injection H as <- ->.
    destruct (IH _ _ eq_refl) as (sent & failed & -> & Hs & Hf & Hl & Hm).
    exists (slice i (i + chunk_size) track_uris :: sent), failed.
    split; [reflexivity|]. split; [constructor; [now exists u|exact Hs]|].
    split; [exact Hf|]. split; [simpl; lia|].
    cbn [List.length firstn map]. f_equal. exact Hm.
  - injection H as <- <-. exists [], (slice i (i + chunk_size) track_uris).
    repeat split; [constructor|exact E|simpl; lia].
Qed.

End Sending.

End Chunks.

(** X11.  When no call fails, the chunks handed to the client are between 1
    and 100 tracks long and, put end to end, are the list of tracks: every
    track is added once, in order, and an empty list makes no call. *)
Theorem all_tracks_sent (add_items : pystr -> list pystr -> result unit)
        (playlist_id : pystr) (track_uris : list pystr) (calls : list (list pystr)) :
  add_tracks_to_playlist add_items playlist_id track_uris = (calls, Ok tt) ->
  List.concat calls = track_uris
  /\ Forall (fun c => 1 <= List.length c <= 100) calls
  /\ (track_uris = [] -> calls = []).
Proof.
  unfold add_tracks_to_playlist. intros H.
  apply Chunks.send_chunks_ok in H. fold (chunks track_uris) in H. subst calls.
  split; [apply Chunks.concat_chunks|]. split; [apply Chunks.chunks_sizes|].
  now intros ->.
Qed.

Lemma all_tracks_sent_witness :
  add_tracks_to_playlist always_ok (py "pl") many_uris
  = ([firstn 100 many_uris; firstn 100 (skipn 100 many_uris); skipn 200 many_uris], Ok tt)
  /\ List.concat [firstn 100 many_uris; firstn 100 (skipn 100 many_uris);
                  skipn 200 many_uris]
     = many_uris.
Proof.
  split; [vm_compute; reflexivity|].
  refine (proj1 (@all_tracks_sent always_ok (py "pl") many_uris _ _)).
  vm_compute. reflexivity.
Defined.

(** X12.  When a call fails, the exception leaves the function at once: the
    calls made are the chunks up to and with the failing one, all before it
    succeeded, and the tracks after the failing chunk are never sent. *)
Theorem failed_send_stops (add_items : pystr -> list pystr -> result unit)
        (playlist_id : pystr) (track_uris : list pystr) (calls : list (list pystr))
        (e : exn) :
  add_tracks_to_playlist add_items playlist_id track_uris = (calls, Raise e) ->
  exists sent failed,
    calls = sent ++ [failed]
    /\ Forall (fun c => exists u, add_items playlist_id c = Ok u) sent
    /\ add_items playlist_id failed = Raise e
    /\ List.concat calls = firstn (List.length calls * 100) track_uris
    /\ List.length sent * 100 < List.length track_uris.
Proof.
  unfold add_tracks_to_playlist. intros H.
  apply Chunks.send_chunks_raise in H.
  destruct H as (sent & failed & Hc & Hs & Hf & Hl & Hm).
  exists sent, failed. split; [exact Hc|]. split; [exact Hs|]. split; [exact Hf|].
  unfold range_step in Hl, Hm. rewrite length_map, length_seq in Hl.
  rewrite firstn_map, Chunks.firstn_seq_le in Hm by lia. split.
  - rewrite Hc at 2. rewrite length_app, Nat.add_1_r. rewrite Hm.
    apply (Chunks.concat_slices chunk_size).
  - apply Chunks.range_within in Hl. exact Hl.
Qed.

Lemma failed_send_stops_witness :
  add_tracks_to_playlist fails_on_second (py "pl") many_uris
  = ([firstn 100 many_uris; firstn 100 (skipn 100 many_uris)],
     Raise (ClientError (py "rate limit")))
  /\ exists sent failed,
      [firstn 100 many_uris; firstn 100 (skipn 100 many_uris)] = sent ++ [failed]
      /\ Forall (fun c => exists u, fails_on_second (py "pl") c = Ok u) sent
      /\ fails_on_second (py "pl") failed = Raise (ClientError (py "rate limit"))
      /\ List.concat [firstn 100 many_uris; firstn 100 (skipn 100 many_uris)]
         = firstn (List.length [firstn 100 many_uris; firstn 100 (skipn 100 many_uris)]
                   * 100) many_uris
      /\ List.length sent * 100 < List.length many_uris.
Proof.
  split; [vm_compute; reflexivity|].
  refine (@failed_send_stops fails_on_second (py "pl") many_uris _ _ _).
  vm_compute. reflexivity.
Defined.

(** ** Choosing the playlist *)

Module Choice.

Lemma lower_char_nonempty (c : N) : Py.lower_char c <> [].
Proof.
  unfold Py.lower_char.
  destruct (_ && _); [discriminate|].
  destruct (N.eqb c 8490); [discriminate|].
  destruct (N.eqb c 304); discriminate.
Qed.

Lemma lower_empty (s : pystr) : Py.lower s = [] -> s = [].
Proof.
  destruct s as [|c s]; [reflexivity|]. unfold Py.lower. simpl. intros H.
  apply app_eq_nil in H. destruct H as [H _]. now apply lower_char_nonempty in H.
Qed.

Lemma lower_char_y (c : N) (rest : pystr) :
  Py.lower_char c ++ rest = py "y" -> (c = 121 \/ c = 89)%N /\ rest = [].
Proof.
  unfold Py.lower_char. change (py "y") with [121%N].
  destruct ((65 <=? c)%N && (c <=? 90)%N) eqn:E.
  - intros [= H ->]. split; [lia|reflexivity].
  - destruct (N.eqb_spec c 8490); [discriminate|].
    destruct (N.eqb_spec c 304); [discriminate|].
    intros [= H ->]. split; [lia|reflexivity].
Qed.

(** Only the letter y, small or capital, lowers to [y]. *)
Lemma lower_is_y (s : pystr) : Py.lower s = py "y" <-> s = py "y" \/ s = py "Y".
Proof.
  split.
  - destruct s as [|c s]; [discriminate|]. unfold Py.lower. simpl. intros H.
    apply lower_char_y in H. destruct H as [Hc Hs].
    apply lower_empty in Hs. subst s. destruct Hc as [-> | ->]; [now left|now right].
  - intros [-> | ->]; reflexivity.
Qed.

Lemma mem_app (c : N) (a b : pystr) : Py.mem c (a ++ b) = Py.mem c a || Py.mem c b.
Proof. apply existsb_app. Qed.

End Choice.

(** X13.  After a yes, an entry that contains the word [playlist] is cut
    down to the text between its last slash and the first question mark
    after it: a playlist URL, with or without a query part, gives the id of
    the playlist, and that id is what the client is asked for. *)
Theorem playlist_id_from_url (user_id playlist_name first_line second_line : pystr)
        (pre id tail : pystr) :
  Py.lower (Py.strip first_line) = py "y" ->
  Py.strip second_line = pre ++ slash :: id ++ tail ->
  Py.contains (py "playlist") (Py.strip second_line) = true ->
  Py.mem slash id = false ->
  Py.mem question_mark id = false ->
  (tail = [] \/ exists q, tail = question_mark :: q /\ Py.mem slash q = false) ->
  create_or_use_playlist user_id playlist_name first_line second_line = GetPlaylist id.
Proof.
  intros Hy Hs Hc Hsl Hq Ht. unfold create_or_use_playlist.
  rewrite Hy. change (Py.str_eqb (py "y") (py "y")) with true. cbv iota.
  rewrite Hc, Hs. f_equal.
  rewrite PyFacts.split_last_without.
  - destruct Ht as [->|(q & -> & _)].
    + rewrite app_nil_r. now apply PyFacts.split_first_without.
    + now apply PyFacts.split_first_before.
  - rewrite Choice.mem_app, Hsl. destruct Ht as [->|(q & -> & Hq')]; [reflexivity|].
    simpl. exact Hq'.
Qed.

Lemma playlist_id_from_url_witness :
  create_or_use_playlist (py "me") (py "Imported Playlist") (py " Y ")
    (py " https://open.spotify.com/playlist/37i9dQZF1DXcBWIGoYBM5M?si=abc ")
  = GetPlaylist (py "37i9dQZF1DXcBWIGoYBM5M").
Proof.
  refine (@playlist_id_from_url (py "me") (py "Imported Playlist") (py " Y ")
            (py " https://open.spotify.com/playlist/37i9dQZF1DXcBWIGoYBM5M?si=abc ")
            (py "https://open.spotify.com/playlist") (py "37i9dQZF1DXcBWIGoYBM5M")
            (py "?si=abc") _ _ _ _ _ _).
  - vm_compute. reflexivity.
  - vm_compute. reflexivity.
  - vm_compute. reflexivity.
  - vm_compute. reflexivity.
  - vm_compute. reflexivity.
  - right. exists (py "si=abc"). split; vm_compute; reflexivity.
Defined.

(** X14.  An existing playlist is used exactly when the first answer, with
    the blanks around it taken off, is the one letter y or Y; every other
    answer, [yes] among them, creates a new public playlist under the given
    name. *)
Theorem only_y_uses_existing (user_id playlist_name first_line second_line : pystr) :
  ((exists playlist_id,
       create_or_use_playlist user_id playlist_name first_line second_line
       = GetPlaylist playlist_id)
   <-> Py.strip first_line = py "y" \/ Py.strip first_line = py "Y")
  /\ (Py.strip first_line <> py "y" -> Py.strip first_line <> py "Y" ->
      create_or_use_playlist user_id playlist_name first_line second_line
      = CreatePlaylist user_id playlist_name true).
Proof.
  unfold create_or_use_playlist.
  destruct (Py.str_eqb (Py.lower (Py.strip first_line)) (py "y")) eqn:E.
  - apply PyFacts.str_eqb_eq, Choice.lower_is_y in E. split.
    + split; [intros _; exact E|intros _; eexists; reflexivity].
    + intros H1 H2. destruct E; contradiction.
  - apply PyFacts.str_eqb_neq in E. split; [|reflexivity].
    split; [intros [pid H]; discriminate|].
    intros H. elim E. now apply Choice.lower_is_y.
Qed.

Lemma only_y_uses_existing_witness :
  Py.strip (py "yes") <> py "y" /\ Py.strip (py "yes") <> py "Y"
  /\ create_or_use_playlist (py "me") (py "Imported Playlist") (py "yes") (py "abc")
     = CreatePlaylist (py "me") (py "Imported Playlist") true.
Proof.
  split; [discriminate|]. split; [discriminate|].
  refine (proj2 (only_y_uses_existing (py "me") (py "Imported Playlist") (py "yes")
                   (py "abc")) _ _); discriminate.
Defined.

(** ** Sorting the unmatched titles *)

Module Groups.

Lemma fold_sort_title (titles : list pystr) :
  forall g,
    fold_left sort_title titles g
    = {| covers := covers g ++ filter (goes_to "cover") titles;
         remixes := remixes g ++ filter (goes_to "remix") titles;
         live := live g ++ filter (goes_to "live") titles;
         instrumental := instrumental g ++ filter (goes_to "instrumental") titles;
         mixes := mixes g ++ filter (goes_to "mix") titles |}.
Proof.
  induction titles as [|t titles IH]; intros g.
  - simpl. rewrite !app_nil_r. now destruct g.
  - cbn [fold_left filter]. rewrite IH. unfold sort_title, goes_to, first_word.
    destruct (has_word "cover" t); [simpl; now rewrite <- !app_assoc|].
    destruct (has_word "remix" t); [simpl; now rewrite <- !app_assoc|].
    destruct (has_word "live" t); [simpl; now rewrite <- !app_assoc|].
    destruct (has_word "instrumental" t); [simpl; now rewrite <- !app_assoc|].
    destruct (has_word "mix" t); [simpl; now rewrite <- !app_assoc|].
    reflexivity.
Qed.

Lemma analyze_filters (titles : list pystr) :
  analyze_unmatched_patterns titles
  = {| covers := filter (goes_to "cover") titles;
       remixes := filter (goes_to "remix") titles;
       live := filter (goes_to "live") titles;
       instrumental := filter (goes_to "instrumental") titles;
       mixes := filter (goes_to "mix") titles |}.
Proof. unfold analyze_unmatched_patterns. now rewrite fold_sort_title. Qed.

Lemma filters_count (titles : list pystr) :
  List.length (filter (goes_to "cover") titles)
  + List.length (filter (goes_to "remix") titles)
  + List.length (filter (goes_to "live") titles)
  + List.length (filter (goes_to "instrumental") titles)
  + List.length (filter (goes_to "mix") titles)
  <= List.length titles.
Proof.
  induction titles as [|t titles IH]; [reflexivity|].
  cbn [filter].
  set (f1 := filter (goes_to "cover") titles) in *.
  set (f2 := filter (goes_to "remix") titles) in *.
  set (f3 := filter (goes_to "live") titles) in *.
  set (f4 := filter (goes_to "instrumental") titles) in *.
  set (f5 := filter (goes_to "mix") titles) in *.
  clearbody f1 f2 f3 f4 f5. cbn [List.length]. unfold goes_to, first_word.
  destruct (has_word "cover" t); [simpl; lia|].
  destruct (has_word "remix" t); [simpl; lia|].
  destruct (has_word "live" t); [simpl; lia|].
  destruct (has_word "instrumental" t); [simpl; lia|].
  destruct (has_word "mix" t); simpl; lia.
Qed.

End Groups.

(** X15.  Each group holds, in the order of the file, the titles whose first
    word among cover, remix, live, instrumental and mix (in that order of
    precedence, sought in the lower-cased title) is the group's own. *)
Theorem groups_are_filters (titles : list pystr) :
  covers (analyze_unmatched_patterns titles) = filter (goes_to "cover") titles
  /\ remixes (analyze_unmatched_patterns titles) = filter (goes_to "remix") titles
  /\ live (analyze_unmatched_patterns titles) = filter (goes_to "live") titles
  /\ instrumental (analyze_unmatched_patterns titles)
     = filter (goes_to "instrumental") titles
  /\ mixes (analyze_unmatched_patterns titles) = filter (goes_to "mix") titles.
Proof. rewrite Groups.analyze_filters. repeat split. Qed.

(** X16.  No row is listed twice: the five groups together have one entry
    at most for each row; and a title that holds [remix] is never listed under
    the mixes, though it holds [mix]. *)
Theorem groups_do_not_overlap (titles : list pystr) :
  List.length (covers (analyze_unmatched_patterns titles))
  + List.length (remixes (analyze_unmatched_patterns titles))
  + List.length (live (analyze_unmatched_patterns titles))
  + List.length (instrumental (analyze_unmatched_patterns titles))
  + List.length (mixes (analyze_unmatched_patterns titles))
  <= List.length titles
  /\ forall t, has_word "remix" t = true ->
               ~ In t (mixes (analyze_unmatched_patterns titles)).
Proof.
  rewrite Groups.analyze_filters. cbn [covers remixes live instrumental mixes]. split.
  - apply Groups.filters_count.
  - intros t Hr Hin. apply filter_In in Hin. destruct Hin as [_ H].
    unfold goes_to, first_word in H. rewrite Hr in H.
    destruct (has_word "cover" t); discriminate.
Qed.

Lemma groups_do_not_overlap_witness :
  has_word "remix" (py "Song (Remix)") = true
  /\ ~ In (py "Song (Remix)")
         (mixes (analyze_unmatched_patterns [py "Song (Remix)"; py "Summer Mix"])).
Proof.
  split; [reflexivity|].
  refine (proj2 (groups_do_not_overlap [py "Song (Remix)"; py "Summer Mix"])
                (py "Song (Remix)") _).
  reflexivity.
Defined.

(** ** Reading the matched file *)

Module Reading.

Lemma split_fields_free (sep : N) (s : pystr) :
  Forall (fun w => Py.mem sep w = false) (Py.split sep s).
Proof.
  induction s as [|c s IH]; simpl; [repeat constructor|].
  destruct (N.eqb_spec c sep) as [->|Hc]; [constructor; [reflexivity|exact IH]|].
  destruct (Py.split sep s) as [|w ws]; [repeat constructor; simpl|].
  - rewrite orb_false_r. apply N.eqb_neq. congruence.
  - inversion IH as [|? ? Hw Hws]; subst. constructor; [|exact Hws].
    simpl. rewrite Hw, orb_false_r. apply N.eqb_neq. congruence.
Qed.

Lemma last_Forall {A} (P : A -> Prop) (l : list A) (d : A) :
  Forall P l -> P d -> P (last l d).
Proof.
  induction 1 as [|x l Hx Hl IH]; intros Hd; [exact Hd|].
  destruct l; [exact Hx|]. now apply IH.
Qed.

Lemma split_last_free (sep : N) (s : pystr) : Py.mem sep (Py.split_last sep s) = false.
Proof.
  unfold Py.split_last.
  apply (@last_Forall _ (fun w => Py.mem sep w = false)); [apply split_fields_free|reflexivity].
Qed.

End Reading.

(** X17.  Whatever the [spotify_url] column holds, every URI read from it is
    [spotify:track:] followed by a text without a slash, and a row gives at
    most one URI. *)
Theorem read_uris_well_formed (rows : list pystr) :
  Forall (fun u => exists id, u = track_uri_prefix ++ id /\ Py.mem slash id = false)
         (read_spotify_tracks_from_csv rows)
  /\ List.length (read_spotify_tracks_from_csv rows) <= List.length rows.
Proof.
  split.
  - induction rows as [|row rows IH]; simpl; [constructor|].
    unfold uri_of_url. destruct (Py.startswith track_url_prefix row); [|exact IH].
    constructor; [|exact IH]. eexists. split; [reflexivity|].
    apply Reading.split_last_free.
  - induction rows as [|row rows IH]; simpl; [lia|].
    destruct (uri_of_url row); simpl; lia.
Qed.

(** ** The normaliser's output *)

Module Tidy.

Lemma thins_refl (s : pystr) : thins s s.
Proof. induction s; constructor; assumption. Qed.

Lemma thins_trans (s t u : pystr) : thins s t -> thins t u -> thins s u.
Proof.
  intros H. revert u. induction H as [|x s t H IH|x s t H IH|x s t Hx H IH]; intros u Hu.
  - exact Hu.
  - apply thins_drop, IH, Hu.
  - inversion Hu; subst.
    + apply thins_drop, IH. assumption.
    + apply thins_keep, IH. assumption.
    + apply thins_space; [assumption|]. apply IH. assumption.
  - inversion Hu; subst.
    + apply thins_drop, IH. assumption.
    + apply thins_space; [assumption|]. apply IH. assumption.
    + apply thins_space; [assumption|]. apply IH. assumption.
Qed.

Lemma thins_length (s t : pystr) : thins s t -> List.length t <= List.length s.
Proof. induction 1; simpl; lia. Qed.

Lemma thins_Forall (P : N -> bool) (s t : pystr) :
  P 32%N = true -> thins s t ->
  Forall (fun c => P c = true) s -> Forall (fun c => P c = true) t.
Proof.
  intros HP. induction 1 as [|x s t H IH|x s t H IH|x s t Hx H IH]; intros Hs.
  - constructor.
  - inversion Hs; subst. now apply IH.
  - inversion Hs; subst. constructor; [assumption|now apply IH].
  - inversion Hs; subst. constructor; [assumption|now apply IH].
Qed.

Lemma thins_prefix (a b : pystr) : thins (a ++ b) a.
Proof.
  induction a as [|x a IH]; simpl; [|now apply thins_keep].
  induction b; constructor; assumption.
Qed.

Lemma lstrip_by_suffix (p : N -> bool) (s : pystr) :
  exists k, k <= List.length s /\ Py.lstrip_by p s = skipn k s.
Proof.
  induction s as [|x s (k & Hk & IH)]; simpl; [exists 0; split; [lia|reflexivity]|].
  destruct (p x); [exists (S k); split; [lia|exact IH]|exists 0; split; [lia|reflexivity]].
Qed.

Lemma rstrip_by_prefix (p : N -> bool) (s : pystr) :
  exists b, s = Py.rstrip_by p s ++ b.
Proof.
  unfold Py.rstrip_by. destruct (lstrip_by_suffix p (rev s)) as (k & _ & E).
  exists (rev (firstn k (rev s))). rewrite E, <- rev_app_distr, firstn_skipn.
  now rewrite rev_involutive.
Qed.

Lemma thins_lstrip_by (p : N -> bool) (s : pystr) : thins s (Py.lstrip_by p s).
Proof.
  induction s as [|x s IH]; simpl; [constructor|].
  destruct (p x); [now apply thins_drop|apply thins_refl].
Qed.

Lemma thins_strip_by (p : N -> bool) (s : pystr) : thins s (Py.strip_by p s).
Proof.
  unfold Py.strip_by. apply thins_trans with (Py.lstrip_by p s); [apply thins_lstrip_by|].
  destruct (rstrip_by_prefix p (Py.lstrip_by p s)) as (b & E).
  rewrite E at 1. apply thins_prefix.
Qed.

Lemma thins_sub_empty (r : Re.regex) (s : pystr) :
  forall pos skip, thins s (Re.sub_from r [] pos skip s).
Proof.
  induction s as [|x s IH]; intros pos skip; cbn [Re.sub_from].
  - destruct skip, (Re.match_at r pos []); constructor.
  - destruct skip as [|n]; [|apply thins_drop, IH].
    destruct (Re.match_at r pos (x :: s)) as [[rest c]|]; [|apply thins_keep, IH].
    destruct (List.length (x :: s) - List.length rest); cbn [app];
      [apply thins_keep, IH|apply thins_drop, IH].
Qed.

Lemma thins_sub_space (r : Re.regex) (need : nat) (s : pystr) :
  1 <= need -> eats_blanks need r ->
  forall pos skip, thins s (Re.sub_from r (py " ") pos skip s).
Proof.
  intros Hn [Hnil Hcons].
  induction s as [|x s IH]; intros pos skip; cbn [Re.sub_from].
  - rewrite Hnil. destruct skip; constructor.
  - destruct skip as [|n]; [|apply thins_drop, IH].
    destruct (Re.match_at r pos (x :: s)) as [[rest c]|] eqn:E; [|apply thins_keep, IH].
    destruct (Hcons _ _ _ _ _ E) as [Hx Hlen].
    destruct (List.length (x :: s) - List.length rest) eqn:Ed; [lia|].
    change (py " " ++ ?t) with (32%N :: t). apply thins_space; [exact Hx|apply IH].
Qed.

(** Each step of the normaliser thins its argument. *)
Lemma step_sub_empty (r : Re.regex) (s : pystr) : thins s (Re.sub r [] s).
Proof. apply thins_sub_empty. Qed.

Lemma step_collapse (s : pystr) : thins s (Re.sub Patterns.ws_plus (py " ") s).
Proof. apply (@thins_sub_space _ 1); [lia|apply Normaliser.eats_blanks_one]. Qed.

Lemma step_collapse_two (s : pystr) : thins s (Re.sub Patterns.ws_two_or_more (py " ") s).
Proof. apply (@thins_sub_space _ 2); [lia|apply Normaliser.eats_blanks_two]. Qed.

Lemma step_strip (s : pystr) : thins s (Py.strip s).
Proof. apply thins_strip_by. Qed.

Lemma step_strip_chars (cs s : pystr) : thins s (Py.strip_chars cs s).
Proof. apply thins_strip_by. Qed.

Ltac thin_step :=
  first [ apply step_strip | apply step_strip_chars | apply step_collapse
        | apply step_collapse_two | apply step_sub_empty ].

Ltac thin_chain :=
  repeat (first [ apply thins_refl | eapply thins_trans; [|thin_step] ]).

(** What follows the removal of the quotes, and what follows the second
    collapse of the blanks. *)
Lemma after_quotes (t : pystr) :
  thins t
    (Py.strip
       (Re.sub Patterns.ws_two_or_more (py " ")
          (Py.strip_chars separators
             (Re.sub Patterns.unwanted_re []
                (Py.strip_chars separators
                   (Py.strip
                      (Re.sub Patterns.ws_plus (py " ")
                         (Re.sub Patterns.bracketed []
                            (Py.strip (Re.sub Patterns.ws_plus (py " ") t)))))))))).
Proof. thin_chain. Qed.

Lemma after_collapse (t : pystr) :
  thins t
    (Py.strip
       (Re.sub Patterns.ws_two_or_more (py " ")
          (Py.strip_chars separators
             (Re.sub Patterns.unwanted_re []
                (Py.strip_chars separators (Py.strip t)))))).
Proof. thin_chain. Qed.

Lemma clean_title_thins (title : pystr) : thins title (clean_title title).
Proof. unfold clean_title. thin_chain. Qed.

End Tidy.

(** X18.  The normaliser only takes characters away and writes a space for
    a blank: its result is the title with some characters dropped and some
    blanks replaced by a space, in the same order, and so never longer than
    the title. *)
Theorem clean_title_only_removes (title : pystr) :
  thins title (clean_title title)
  /\ List.length (clean_title title) <= List.length title.
Proof.
  split; [apply Tidy.clean_title_thins|].
  apply Tidy.thins_length, Tidy.clean_title_thins.
Qed.

Module Spaces.

(** Substituting nothing for a class of characters leaves none of them. *)
Lemma sub_class_removed (p : N -> bool) (s : pystr) :
  forall pos skip, Forall (fun x => p x = false) (Re.sub_from (Re.Chr p) [] pos skip s).
Proof.
  induction s as [|x s IH]; intros pos skip; cbn [Re.sub_from].
  - destruct skip; constructor.
  - destruct skip as [|n]; [|apply IH].
    unfold Re.match_at. cbn [Re.run]. destruct (p x) eqn:E.
    + cbn [List.length]. rewrite Nat.sub_succ_l, Nat.sub_diag by lia. cbn [app]. apply IH.
    + constructor; [exact E|apply IH].
Qed.

(** A repetition that nothing follows always matches. *)
Lemma rep_loop_final greedy body fuel pos s c :
  Re.rep_loop greedy body (fun _ s' c' => Some (s', c')) fuel pos s c <> None.
Proof.
  destruct fuel; cbn [Re.rep_loop]; destruct greedy; unfold Re.orelse;
    try discriminate;
    match goal with |- context [match ?a with _ => _ end] => destruct a end;
    discriminate.
Qed.

Lemma ws_plus_at_blank (x : N) (s : pystr) (pos : nat) :
  Py.is_space x = true -> Re.match_at Patterns.ws_plus pos (x :: s) <> None.
Proof.
  intros H. unfold Re.match_at, Patterns.ws_plus, Re.plus. cbn [Re.run Re.ws].
  rewrite H. apply rep_loop_final.
Qed.

(** After the blanks are collapsed, the only blank left is the space. *)
Lemma sub_collapse_plain (s : pystr) :
  forall pos skip,
    Forall (fun c => plain c = true) (Re.sub_from Patterns.ws_plus (py " ") pos skip s).
Proof.
  destruct (Normaliser.eats_blanks_one (Re.Rep true Re.ws)) as [Hnil Hcons].
  change (Re.Cat Re.ws (Re.Rep true Re.ws)) with Patterns.ws_plus in Hnil, Hcons.
  induction s as [|x s IH]; intros pos skip; cbn [Re.sub_from].
  - rewrite Hnil. destruct skip; constructor.
  - destruct skip as [|n]; [|apply IH].
    destruct (Re.match_at Patterns.ws_plus pos (x :: s)) as [[rest c]|] eqn:E.
    + destruct (Hcons _ _ _ _ _ E) as [_ Hlen].
      destruct (List.length (x :: s) - List.length rest) eqn:Ed; [lia|].
      change (py " " ++ ?t) with (32%N :: t). constructor; [reflexivity|apply IH].
    + constructor; [|apply IH]. unfold plain.
      destruct (Py.is_space x) eqn:Hx; [|reflexivity].
      now apply (@ws_plus_at_blank x s pos) in Hx.
Qed.

(** *** The ends *)

Lemma lstrip_by_head (p : N -> bool) (s : pystr) :
  match Py.lstrip_by p s with
  | x :: _ => p x = false
  | [] => True
  end.
Proof.
  induction s as [|x s IH]; simpl; [exact I|].
  destruct (p x) eqn:E; [exact IH|exact E].
Qed.

Lemma strip_starts (s : pystr) : starts_blank (Py.strip s) = false.
Proof.
  unfold Py.strip, Py.strip_by.
  pose proof (lstrip_by_head Py.is_space s) as H.
  destruct (Tidy.rstrip_by_prefix Py.is_space (Py.lstrip_by Py.is_space s)) as (b & E).
  destruct (Py.rstrip_by Py.is_space (Py.lstrip_by Py.is_space s)) as [|x t];
    [reflexivity|].
  rewrite E in H. exact H.
Qed.

Lemma strip_ends (s : pystr) : ends_blank (Py.strip s) = false.
Proof.
  unfold ends_blank, Py.strip, Py.strip_by, Py.rstrip_by. rewrite rev_involutive.
  pose proof (lstrip_by_head Py.is_space (rev (Py.lstrip_by Py.is_space s))) as H.
  destruct (Py.lstrip_by Py.is_space (rev (Py.lstrip_by Py.is_space s)));
    [reflexivity|exact H].
Qed.

(** *** Runs of blanks *)

Lemma rep_ws_greedy (s : pystr) :
  forall fuel pos c,
    List.length s <= fuel ->
    Re.rep_loop true (Re.run Re.ws) (fun _ s' c' => Some (s', c')) fuel pos s c
    = Some (Py.lstrip_by Py.is_space s, c).
Proof.
  induction s as [|x s IH]; intros fuel pos c Hf.
  - destruct fuel; reflexivity.
  - destruct fuel as [|fuel]; [simpl in Hf; lia|].
    cbn [Re.rep_loop Re.run Re.ws Py.lstrip_by]. destruct (Py.is_space x); [|reflexivity].
    replace (Nat.eqb (S pos) pos) with false by (symmetry; apply Nat.eqb_neq; lia).
    rewrite IH by (simpl in Hf; lia). reflexivity.
Qed.

Lemma two_at_blanks (x y : N) (s : pystr) (pos : nat) :
  Py.is_space x = true -> Py.is_space y = true ->
  Re.match_at Patterns.ws_two_or_more pos (x :: y :: s)
  = Some (Py.lstrip_by Py.is_space s, []).
Proof.
  intros Hx Hy. unfold Re.match_at, Patterns.ws_two_or_more, Patterns.ws_star.
  cbn [Re.cat Re.run Re.ws]. rewrite Hx, Hy. now apply rep_ws_greedy.
Qed.

Lemma two_not_at_plain (x : N) (s : pystr) (pos : nat) :
  Py.is_space x = false -> Re.match_at Patterns.ws_two_or_more pos (x :: s) = None.
Proof.
  intros Hx. unfold Re.match_at, Patterns.ws_two_or_more.
  cbn [Re.cat Re.run Re.ws]. now rewrite Hx.
Qed.

Lemma two_not_at_single (x : N) (s : pystr) (pos : nat) :
  starts_blank s = false -> Re.match_at Patterns.ws_two_or_more pos (x :: s) = None.
Proof.
  intros Hs. unfold Re.match_at, Patterns.ws_two_or_more.
  cbn [Re.cat Re.run Re.ws]. destruct (Py.is_space x); [|reflexivity].
  destruct s as [|y s]; [reflexivity|]. simpl in Hs. now rewrite Hs.
Qed.

(** After runs of two blanks or more are replaced by a space, no two blanks
    stand side by side. *)
Lemma collapse_two_single (n : nat) :
  forall s, List.length s <= n ->
  forall pos,
    double_blank (Re.sub_from Patterns.ws_two_or_more (py " ") pos 0 s) = false
    /\ (starts_blank s = false ->
        starts_blank (Re.sub_from Patterns.ws_two_or_more (py " ") pos 0 s) = false).
Proof.
  induction n as [|n IH]; intros s Hn pos.
  { destruct s; [|simpl in Hn; lia]. split; reflexivity. }
  destruct s as [|x s]; [split; reflexivity|]. cbn [List.length] in Hn.
  cbn [Re.sub_from]. destruct (Py.is_space x) eqn:Hx.
  - destruct (starts_blank s) eqn:Hs.
    + destruct s as [|y s]; [discriminate|]. simpl in Hs.
      rewrite two_at_blanks by assumption.
      destruct (Tidy.lstrip_by_suffix Py.is_space s) as (k & Hk & E).
      pose proof (lstrip_by_head Py.is_space s) as Hh.
      assert (Hd : List.length (x :: y :: s) - List.length (Py.lstrip_by Py.is_space s)
                   = S (S k)).
      { rewrite E, length_skipn. cbn [List.length]. lia. }
      rewrite Hd, ReFacts.sub_from_skip by (cbn [List.length]; lia).
      cbn [skipn]. rewrite <- E.
      cbn [List.length] in Hn.
      destruct (IH (Py.lstrip_by Py.is_space s)
                   ltac:(rewrite E, length_skipn; lia) (S k + S pos)) as [Hdb Hst].
      split; [|cbn [starts_blank]; congruence].
      change (py " " ++ ?t) with (32%N :: t). cbn [double_blank].
      rewrite Hdb, Hst; [reflexivity|].
      destruct (Py.lstrip_by Py.is_space s); [reflexivity|exact Hh].
    + rewrite two_not_at_single by assumption.
      destruct (IH s ltac:(lia) (S pos)) as [Hdb Hst].
      split; [|simpl; congruence].
      cbn [double_blank]. rewrite Hdb, (Hst Hs). now rewrite andb_false_r.
  - rewrite two_not_at_plain by assumption.
    destruct (IH s ltac:(lia) (S pos)) as [Hdb _].
    split; [|intros _; exact Hx].
    cbn [double_blank]. now rewrite Hx, Hdb.
Qed.

Lemma double_blank_skipn (k : nat) :
  forall s, double_blank s = false -> double_blank (skipn k s) = false.
Proof.
  induction k as [|k IH]; intros s H; [exact H|].
  destruct s as [|x s]; [reflexivity|]. simpl in H |- *.
  apply orb_false_iff in H. now apply IH.
Qed.

Lemma double_blank_prefix (a b : pystr) :
  double_blank (a ++ b) = false -> double_blank a = false.
Proof.
  induction a as [|x a IH]; [reflexivity|]. simpl. intros H.
  apply orb_false_iff in H. destruct H as [H1 H2]. rewrite (IH H2).
  destruct a as [|y a]; [now rewrite andb_false_r|exact (eq_trans (orb_false_r _) H1)].
Qed.

Lemma double_blank_strip (s : pystr) :
  double_blank s = false -> double_blank (Py.strip s) = false.
Proof.
  intros H. unfold Py.strip, Py.strip_by.
  destruct (Tidy.lstrip_by_suffix Py.is_space s) as (k & _ & E).
  destruct (Tidy.rstrip_by_prefix Py.is_space (Py.lstrip_by Py.is_space s)) as (b & Eb).
  apply double_blank_prefix with b. rewrite <- Eb, E. now apply double_blank_skipn.
Qed.

End Spaces.

(** X19.  The result of the normaliser holds no straight quote, double or
    single, and no blank other than the space; it neither begins nor ends
    with a space, and no two spaces stand side by side. *)
Theorem clean_title_tidy (title : pystr) :
  Forall (fun c => is_quote c = false) (clean_title title)
  /\ Forall (fun c => plain c = true) (clean_title title)
  /\ starts_blank (clean_title title) = false
  /\ ends_blank (clean_title title) = false
  /\ double_blank (clean_title title) = false.
Proof.
  unfold clean_title. repeat split.
  - apply Forall_impl with (P := fun c => negb (is_quote c) = true);
      [intros c Hc; now apply negb_true_iff in Hc|].
    eapply (@Tidy.thins_Forall (fun c => negb (is_quote c)));
      [reflexivity|apply Tidy.after_quotes|].
    apply Forall_impl with (P := fun c => is_quote c = false);
      [intros c Hc; now apply negb_true_iff|].
    apply (Spaces.sub_class_removed is_quote).
  - eapply (Tidy.thins_Forall plain); [reflexivity|apply Tidy.after_collapse|].
    apply Spaces.sub_collapse_plain.
  - apply Spaces.strip_starts.
  - apply Spaces.strip_ends.
  - apply Spaces.double_blank_strip.
    eapply Spaces.collapse_two_single, Nat.le_refl.
Qed.

(** ** Titles without a separator *)

Module Fallback.

(** A pattern that needs a character of some kind does not match a text
    without one. *)
Lemma run_needs (P : N -> bool) (r : Re.regex) :
  needs P r ->
  forall pos s c (k : Re.cont) x,
    Re.run r pos s c k = Some x -> exists y, In y s /\ P y = true.
Proof.
  induction r as [|p|r1 IH1 r2 IH2|r1 IH1 r2 IH2|g r1 IH1|n r1 IH1| |];
    cbn [needs]; intros Hn pos s c k x H; try contradiction.
  - cbn [Re.run] in H. destruct s as [|y s]; [discriminate|].
    destruct (p y) eqn:E; [|discriminate]. exists y. split; [now left|now apply Hn].
  - cbn [Re.run] in H. destruct Hn as [Hn|Hn]; [now apply (IH1 Hn _ _ _ _ _ H)|].
    apply ReFacts.run_reaches in H.
    destruct H as (pos' & pre & s' & c' & -> & _ & H).
    destruct (IH2 Hn _ _ _ _ _ H) as (y & Hy & HP).
    exists y. split; [apply in_or_app; now right|exact HP].
  - cbn [Re.run] in H. destruct Hn as [Hn1 Hn2].
    apply ReFacts.orelse_some in H. destruct H as [H|H];
      [now apply (IH1 Hn1 _ _ _ _ _ H)|now apply (IH2 Hn2 _ _ _ _ _ H)].
  - cbn [Re.run] in H. now apply (IH1 Hn _ _ _ _ _ H).
Qed.

Lemma rmatch_needs (P : N -> bool) (r : Re.regex) (s : pystr) :
  needs P r -> Forall (fun c => P c = false) s -> Re.rmatch r s = None.
Proof.
  intros Hn Hs. unfold Re.rmatch, Re.match_at.
  destruct (Re.run r 0 s [] _) as [x|] eqn:E; [|reflexivity].
  destruct (run_needs P r Hn _ _ _ _ E) as (y & Hy & HP).
  rewrite Forall_forall in Hs. rewrite (Hs y Hy) in HP. discriminate.
Qed.

Lemma cascade_falls_through (P : N -> bool) (patterns : list Re.regex) (title : pystr) :
  Forall (needs P) patterns -> Forall (fun c => P c = false) title ->
  cascade patterns title = Ok (None, Some title).
Proof.
  intros Hp Ht. induction Hp as [|p ps Hn _ IH]; [reflexivity|].
  cbn [cascade]. now rewrite (rmatch_needs P p Hn Ht).
Qed.

Ltac class_found x H :=
  first [ solve [unfold splits; rewrite H; reflexivity]
        | unfold Re.one_of, Py.mem in H; simpl in H;
          repeat (apply orb_prop in H; destruct H as [H|H]);
          first [ discriminate H | apply N.eqb_eq in H; subst x; reflexivity ] ].

Ltac class_splits :=
  let x := fresh "x" in
  let H := fresh "H" in
  intros x H;
  first [ unfold Re.either in H; apply orb_prop in H; destruct H as [H|H]; class_found x H
        | class_found x H ].

Ltac find_class :=
  lazymatch goal with
  | |- _ \/ _ => first [ left; find_class | right; find_class ]
  | |- forall _, _ => solve [class_splits]
  end.

Ltac pattern_needs := cbn [needs]; find_class.

Lemma patterns_need_separator : Forall (needs splits) ExtractPatterns.patterns.
Proof.
  unfold ExtractPatterns.patterns.
  repeat (apply Forall_cons; [cbv [Re.cat Re.plus Patterns.ws_plus ExtractPatterns.delim
                                   ExtractPatterns.dash ExtractPatterns.hyphen
                                   ExtractPatterns.gap ExtractPatterns.open_quote
                                   Patterns.chr Re.ws]; pattern_needs|]).
  apply Forall_nil.
Qed.

(** A text without blanks is thinned by dropping characters alone. *)
Lemma thins_keeps (P : N -> bool) (s t : pystr) :
  thins s t ->
  Forall (fun c => Py.is_space c = false) s ->
  Forall (fun c => P c = false) s -> Forall (fun c => P c = false) t.
Proof.
  induction 1 as [|x s t H IH|x s t H IH|x s t Hx H IH]; intros Hb Hs.
  - constructor.
  - inversion Hb; inversion Hs; subst. now apply IH.
  - inversion Hb; inversion Hs; subst. constructor; [assumption|now apply IH].
  - inversion Hb; subst. congruence.
Qed.

Lemma splits_blank (c : N) : splits c = false -> Py.is_space c = false.
Proof. unfold splits. intros H. now apply orb_false_iff in H. Qed.

End Fallback.

(** X20.  A title without a blank, hyphen, dash, colon, pipe, tilde or
    opening quote matches none of the fifteen patterns: the cascade returns
    no artist and the title itself as the track, and so it does on the
    normalised title. *)
Theorem title_without_separator (title : pystr) :
  Forall (fun c => splits c = false) title ->
  cascade ExtractPatterns.patterns title = Ok (None, Some title)
  /\ cascade ExtractPatterns.patterns (clean_title title)
     = Ok (None, Some (clean_title title)).
Proof.
  intros H. split.
  - apply (@Fallback.cascade_falls_through splits);
      [apply Fallback.patterns_need_separator|exact H].
  - apply (@Fallback.cascade_falls_through splits);
      [apply Fallback.patterns_need_separator|].
    apply (@Fallback.thins_keeps splits title); [apply Tidy.clean_title_thins| |exact H].
    eapply Forall_impl; [|exact H]. intros c Hc. now apply Fallback.splits_blank.
Qed.

Lemma title_without_separator_witness :
  Forall (fun c => splits c = false) (py "Song(Live)")
  /\ cascade ExtractPatterns.patterns (py "Song(Live)") = Ok (None, Some (py "Song(Live)")).
Proof.
  assert (H : Forall (fun c => splits c = false) (py "Song(Live)"))
    by (repeat constructor).
  split; [exact H|]. exact (proj1 (title_without_separator H)).
Defined.
